(** * The spaced-repetition progress engine of the vocabulary backend

    A shallow embedding of [routes/flashcards.js] (the progress codec, the
    review scheduler, the reconciler and the due-list evaluator) and of the
    progress-related parts of [routes/words.js], followed by the properties
    the design document states about them.

    JavaScript numbers are IEEE 754 binary64 values; they are modelled by
    Rocq's primitive floats, whose operations are the same roundings. *)

From Stdlib Require Import ZArith Lia Bool List String Ascii.
From Stdlib Require Import Floats Reals Lra.
From stdpp Require Import base option list gmap strings.

Local Open Scope Z_scope.
Set Warnings "-inexact-float".

(** ** JavaScript values and numbers *)

Module Js.

(** The values a stored field can hold.  A [Date] is represented by its time
    value in milliseconds (NaN for an invalid date). *)
Inductive value :=
| VUndefined
| VNull
| VBool (b : bool)
| VNum (x : float)
| VStr (s : string)
| VDate (t : float).

(** [ToBoolean]. *)
Definition truthy (v : value) : bool :=
  match v with
  | VUndefined | VNull => false
  | VBool b => b
  | VNum x => negb (is_zero x || is_nan x)
  | VStr s => negb (String.eqb s "")
  | VDate _ => true
  end.

(** [a || b]. *)
Definition or_else (a b : value) : value := if truthy a then a else b.

(** [typeof v === 'number' ? v : d]. *)
Definition number_or (v : value) (d : float) : float :=
  match v with VNum x => x | _ => d end.

(** [Math.min(a, b)] and [Math.max(a, b)]: NaN if either argument is NaN,
    and -0 is smaller than +0. *)
Definition Math_min (a b : float) : float :=
  if is_nan a || is_nan b then nan
  else if (a <? b)%float then a
  else if (b <? a)%float then b
  else if get_sign a then a else b.

Definition Math_max (a b : float) : float :=
  if is_nan a || is_nan b then nan
  else if (a <? b)%float then b
  else if (b <? a)%float then a
  else if get_sign a then b else a.

(** [Math.ceil] on the sign, mantissa and exponent of the number: numbers
    with a non-negative exponent are integers already; a negative number
    above -1 gives -0. *)
Definition SFceil (x : spec_float) : spec_float :=
  match x with
  | S754_finite s m e =>
      if 0 <=? e then x
      else
        let q := Z.pos m / 2 ^ (- e) in
        if s then
          if q =? 0 then S754_zero true
          else binary_normalize prec emax (- q) 0 true
        else
          binary_normalize prec emax
            (if Z.pos m mod 2 ^ (- e) =? 0 then q else q + 1) 0 false
  | _ => x
  end.

Definition Math_ceil (x : float) : float := SF2Prim (SFceil (Prim2SF x)).

(** Truncation towards zero of a finite number ([ToIntegerOrInfinity]
    followed by the conversion back to a number, which has no -0). *)
Definition SFtrunc (x : spec_float) : spec_float :=
  match x with
  | S754_finite s m e =>
      if 0 <=? e then x
      else binary_normalize prec emax
             (cond_Zopp s (Z.pos m / 2 ^ (- e))) 0 false
  | S754_zero _ => S754_zero false
  | _ => x
  end.

Definition trunc (x : float) : float := SF2Prim (SFtrunc (Prim2SF x)).

(** [TimeClip]: the time value of [new Date(t)] for a number [t]. *)
Definition TimeClip (t : float) : float :=
  if negb (is_finite t) then nan
  else if (8.64e15 <? abs t)%float then nan
  else trunc t.

(** [v + 1] for the value left by [prev.reviewCount || 0].  A string (and a
    Date, through its string form) concatenates. *)
Definition plus_one (Date_toString : float -> string) (v : value) : value :=
  match v with
  | VNum x => VNum (x + 1)%float
  | VBool b => VNum ((if b then 1 else 0) + 1)%float
  | VNull => VNum (0 + 1)%float
  | VUndefined => VNum (nan + 1)%float
  | VStr s => VStr (s +:+ "1")
  | VDate t => VStr (Date_toString t +:+ "1")
  end.

(** [d <= now] for a Date [now], where [d] is [v] itself, or [new Date(v)]
    when [v] is a string: both sides are compared as numbers. *)
Definition time_of (Date_parse : string -> float) (v : value) : float :=
  match v with
  | VStr s => Date_parse s
  | VDate t => t
  | VNum x => x
  | VBool b => if b then 1%float else 0%float
  | VNull => 0%float
  | VUndefined => nan
  end.

End Js.

(** ** The stored documents *)

Module Store.
Import Js.

(** A progress object as it is stored: any of its fields may be missing
    ([VUndefined]) or hold a value of another type. *)
Record entry := Entry {
  ease : value;
  interval : value;
  reviewCount : value;
  lastReviewed : value;
  nextReview : value
}.

(** [{}] *)
Definition no_fields : entry :=
  Entry VUndefined VUndefined VUndefined VUndefined VUndefined.

(** [progress.words]: an object keyed by word id.  Its property [map] (the
    nested [Map] that [routes/words.js] reads and purges) is kept apart from
    the word ids, which are 24-digit ObjectId strings. *)
Record words_object := Words {
  by_id : gmap string entry;
  words_map : option (gmap string entry)
}.

(** [user.progress]; a field that is absent (or, for the two arrays, not an
    array) is [None].  An element of [wordsHistory] is the word id with the
    five progress fields. *)
Record progress_record := Progress {
  words : option words_object;
  wordsHistory : option (list (string * entry));
  mastered : option (list string);
  needsReview : option (list string)
}.

Record user := User { progress : option progress_record }.

(** A vocabulary item ([w.toObject()]). *)
Record word := Word { _id : string; portuguese : string; english : string }.

(** The two collections: users by id, and the vocabulary in the order in
    which [Word.find().sort({ portuguese: 1 })] returns it. *)
Record db := Db { users : gmap string user; catalog : list word }.

End Store.

(** ** routes/flashcards.js *)

Module Flashcards.
Import Js Store.

(** What a handler answers: the JSON body, or an error status with its
    message. *)
Inductive response (A : Type) :=
| Json (body : A)
| Rejected (status : Z) (error : string).
Arguments Json {A} body.
Arguments Rejected {A} status error.

Section Routes.

(** The host's [Date] string conversions. *)
Variable Date_parse : string -> float.
Variable Date_toString : float -> string.

(** [isValidObjectId]: the strings that [String(new ObjectId(id)) === id]
    accepts are the 24-digit lower-case hexadecimal ones. *)
Definition is_hex_digit (c : ascii) : bool :=
  let n := nat_of_ascii c in
  ((48 <=? n)%nat && (n <=? 57)%nat) || ((97 <=? n)%nat && (n <=? 102)%nat).

Definition isValidObjectId (id : value) : bool :=
  match id with
  | VStr s =>
      (String.length s =? 24)%nat && forallb is_hex_digit (list_ascii_of_string s)
  | _ => false
  end.

Definition empty_words : words_object := Words ∅ None.

Definition ensureProgressStructure (u : user) : user :=
  let p :=
    match progress u with
    | None => Progress (Some empty_words) (Some []) (Some []) (Some [])
    | Some p => p
    end in
  User (Some (Progress
    (Some (default empty_words (words p)))
    (Some (default [] (wordsHistory p)))
    (Some (default [] (mastered p)))
    (Some (default [] (needsReview p))))).

(** The all-defaults entry. *)
Definition default_entry : entry :=
  Entry (VNum 2.5) (VNum 0) (VNum 0) VNull VNull.

(** [wordsHistory.find(e => String(e.wordId) === String(wordId))] *)
Definition find_history (h : list (string * entry)) (wordId : string)
  : option (string * entry) :=
  List.find (fun e => String.eqb (fst e) wordId) h.

(** [getProgressEntry(user, wordId)]: the entry it returns, and the user
    object as the call leaves it. *)
Definition getProgressEntry (u : user) (wordId : string) : entry * user :=
  let u := ensureProgressStructure u in
  let from_history :=
    match progress u ≫= wordsHistory with
    | Some h =>
        match find_history h wordId with
        | Some (_, historyEntry) =>
            Entry (VNum (number_or (ease historyEntry) 2.5))
                  (VNum (number_or (interval historyEntry) 0))
                  (or_else (reviewCount historyEntry) (VNum 0))
                  (lastReviewed historyEntry)
                  (nextReview historyEntry)
        | None => default_entry
        end
    | None => default_entry
    end in
  match progress u ≫= words with
  | Some w =>
      match by_id w !! wordId with
      | Some e => (e, u)
      | None => (from_history, u)
      end
  | None => (from_history, u)
  end.

(** The object the review handler builds and hands to [setProgressEntry]:
    two numbers, the incremented count and two Dates. *)
Record updated := Updated {
  u_ease : float;
  u_interval : float;
  u_reviewCount : value;
  u_lastReviewed : float;
  u_nextReview : float
}.

Definition stored (e : updated) : entry :=
  Entry (VNum (u_ease e)) (VNum (u_interval e)) (u_reviewCount e)
        (VDate (u_lastReviewed e)) (VDate (u_nextReview e)).

(** [a.findIndex(id => String(id) === String(wordId))] *)
Fixpoint findIndex {A} (f : A -> bool) (l : list A) : option nat :=
  match l with
  | [] => None
  | x :: l => if f x then Some 0%nat else S <$> findIndex f l
  end.

(** [a.splice(i, 1)] *)
Definition splice1 {A} (i : nat) (l : list A) : list A := delete i l.

(** [a.push(x)] *)
Definition push {A} (l : list A) (x : A) : list A := l ++ [x].

Definition setProgressEntry (u : user) (wordId : string) (e : updated) : user :=
  let u := ensureProgressStructure u in
  let p := default (Progress None None None None) (progress u) in
  let w := default empty_words (words p) in
  let w := Words (<[wordId := stored e]> (by_id w)) (words_map w) in
  let h := default [] (wordsHistory p) in
  let idx := findIndex (fun x => String.eqb (fst x) wordId) h in
  let historyObj := (wordId, stored e) in
  let h :=
    match idx with
    | None => push h historyObj
    | Some i => <[i := historyObj]> h
    end in
  let m := default [] (mastered p) in
  let n := default [] (needsReview p) in
  let masteredIdx := findIndex (fun id => String.eqb id wordId) m in
  let needsIdx := findIndex (fun id => String.eqb id wordId) n in
  let isMastered := (21 <=? u_interval e)%float in
  let isNeeds := (u_interval e <? 7)%float in
  let '(m, n) :=
    if isMastered then
      (match masteredIdx with None => push m wordId | Some _ => m end,
       match needsIdx with Some i => splice1 i n | None => n end)
    else if isNeeds then
      (match masteredIdx with Some i => splice1 i m | None => m end,
       match needsIdx with None => push n wordId | Some _ => n end)
    else
      (match masteredIdx with Some i => splice1 i m | None => m end,
       match needsIdx with Some i => splice1 i n | None => n end) in
  User (Some (Progress (Some w) (Some h) (Some m) (Some n))).

(** The progress fields merged into a word by [GET /] and [GET /due]. *)
Definition merge (progress : entry) : entry :=
  Entry (VNum (number_or (ease progress) 2.5))
        (VNum (number_or (interval progress) 0))
        (or_else (reviewCount progress) (VNum 0))
        (or_else (lastReviewed progress) VNull)
        (or_else (nextReview progress) VNull).

(** [words.map((w) => ...)]: every call of [getProgressEntry] receives the
    user object as the previous call left it. *)
Fixpoint wordsWithProgress (u : user) (ws : list word)
  : list (word * entry) * user :=
  match ws with
  | [] => ([], u)
  | w :: ws =>
      let '(progress, u) := getProgressEntry u (_id w) in
      let '(rest, u) := wordsWithProgress u ws in
      ((w, merge progress) :: rest, u)
  end.

(** [GET /api/flashcards] *)
Definition get_flashcards (d : db) (userId : string)
  : response (list (word * entry)) :=
  if negb (isValidObjectId (VStr userId)) then Rejected 400 "Invalid user ID"
  else
    match users d !! userId with
    | None => Rejected 404 "User not found"
    | Some u => Json (fst (wordsWithProgress u (catalog d)))
    end.

(** The mapping and the log of a user, empty when absent. *)
Definition mapping (u : user) : gmap string entry :=
  by_id (default empty_words (progress u ≫= words)).

Definition log (u : user) : list (string * entry) :=
  default [] (progress u ≫= wordsHistory).

(** The two membership arrays of a user, empty when absent. *)
Definition mastered_ids (u : user) : list string :=
  default [] (progress u ≫= mastered).

Definition needsReview_ids (u : user) : list string :=
  default [] (progress u ≫= needsReview).

(** The two arrays after a write, each in terms of the array before. *)
Definition mastered_after (w : string) (i : float) (m : list string) : list string :=
  if (21 <=? i)%float then
    match findIndex (fun id => String.eqb id w) m with None => push m w | Some _ => m end
  else
    match findIndex (fun id => String.eqb id w) m with Some k => splice1 k m | None => m end.

Definition needsReview_after (w : string) (i : float) (n : list string) : list string :=
  if (21 <=? i)%float then
    match findIndex (fun id => String.eqb id w) n with Some k => splice1 k n | None => n end
  else if (i <? 7)%float then
    match findIndex (fun id => String.eqb id w) n with None => push n w | Some _ => n end
  else
    match findIndex (fun id => String.eqb id w) n with Some k => splice1 k n | None => n end.

(** The log after a write: the tuple of the word replaced where it was, or
    appended. *)
Definition upsert (w : string) (v : entry) (l : list (string * entry))
  : list (string * entry) :=
  match findIndex (fun x => String.eqb (fst x) w) l with
  | None => push l (w, v)
  | Some i => <[i := (w, v)]> l
  end.

(** The entries within the bounds of the data model. *)
Definition in_bounds (e : entry) : Prop :=
  ∃ x i, ease e = VNum x ∧ interval e = VNum i
    ∧ (1.3 <=? x)%float = true ∧ (x <=? 3)%float = true
    ∧ (0 <=? i)%float = true.

(** A consistent record: the two arrays are disjoint sets, the log has one
    tuple per word, every mapping entry has its copy in the log, and the
    arrays classify every word of the mapping by its stored interval. *)
Definition consistent (u : user) : Prop :=
  NoDup (mastered_ids u) ∧ NoDup (needsReview_ids u)
  ∧ (∀ x, x ∈ mastered_ids u -> x ∉ needsReview_ids u)
  ∧ NoDup (List.map fst (log u))
  ∧ (∀ id x, mapping u !! id = Some x -> find_history (log u) id = Some (id, x))
  ∧ (∀ id x i, mapping u !! id = Some x -> interval x = VNum i ->
       (id ∈ mastered_ids u <-> (21 <=? i)%float = true)
       ∧ (id ∈ needsReview_ids u <-> (i <? 7)%float = true)).

(** What the history branch of [getProgressEntry] returns for a tuple. *)
Definition of_history (he : entry) : entry :=
  Entry (VNum (number_or (ease he) 2.5))
        (VNum (number_or (interval he) 0))
        (or_else (reviewCount he) (VNum 0))
        (lastReviewed he)
        (nextReview he).

(** The progress object a reader builds for a word: the answer of
    [getProgressEntry] with the defaults of lines 150-154 (and 282-286). *)
Definition normalize (u : user) (wordId : string) : entry :=
  merge (fst (getProgressEntry u wordId)).

(** [difficulty === s] *)
Definition is_string (v : value) (s : string) : bool :=
  match v with VStr t => String.eqb t s | _ => false end.

(** Lines 197-224 of the review handler: the new progress object computed
    from the previous one. *)
Definition review_step (prev : entry) (difficulty : value) (now : float)
  : updated :=
  let ease0 := number_or (ease prev) 2.5 in
  let interval0 := number_or (interval prev) 0 in
  let reviewCount0 := or_else (reviewCount prev) (VNum 0) in
  let '(ease1, interval1) :=
    if is_string difficulty "easy" then
      let ease1 := Math_min 3.0 (ease0 + 0.15) in
      (ease1,
       if (interval0 =? 0)%float then 1%float
       else Math_ceil (interval0 * ease1))
    else if is_string difficulty "medium" then
      (Math_max 1.3 (ease0 - 0.05),
       if (interval0 =? 0)%float then 1%float
       else Math_ceil (interval0 * 1.2))
    else
      (Math_max 1.3 (ease0 - 0.2), 1%float) in
  let nextReview1 :=
    TimeClip (now + interval1 * 24 * 60 * 60 * 1000)%float in
  Updated ease1 interval1 (plus_one Date_toString reviewCount0) now nextReview1.

(** [POST /api/flashcards/review]: the answer, and the database after it. *)
Definition post_review (d : db) (userId : string) (wordId difficulty : value)
    (now : float) : response (value * updated) * db :=
  if negb (truthy wordId) || negb (truthy difficulty) then
    (Rejected 400 "wordId and difficulty are required", d)
  else if negb (isValidObjectId (VStr userId)) || negb (isValidObjectId wordId)
  then (Rejected 400 "Invalid userId or wordId", d)
  else
    match users d !! userId with
    | None => (Rejected 404 "User not found", d)
    | Some u =>
        let id := match wordId with VStr s => s | _ => "" end in
        if negb (existsb (fun w => String.eqb (_id w) id) (catalog d)) then
          (Rejected 404 "Word not found", d)
        else
          let u := ensureProgressStructure u in
          let '(prev, u) := getProgressEntry u id in
          let upd := review_step prev difficulty now in
          let u := setProgressEntry u id upd in
          (Json (wordId, upd), Db (<[userId := u]> (users d)) (catalog d))
    end.

(** Lines 193-227 on the user document alone: the computed progress and the
    document that is saved. *)
Definition review_user (u : user) (id : string) (difficulty : value)
    (now : float) : updated * user :=
  let u := ensureProgressStructure u in
  let '(prev, u) := getProgressEntry u id in
  let upd := review_step prev difficulty now in
  (upd, setProgressEntry u id upd).

(** Successive reviews of one word, each with its difficulty and its time:
    every review starts from the entry the previous one stored. *)
Fixpoint reviews (steps : list (value * float)) (e : entry) : entry :=
  match steps with
  | [] => e
  | (difficulty, now) :: steps =>
      reviews steps (stored (review_step e difficulty now))
  end.

(** The filter of [GET /due]: no [nextReview], or one that is not after
    [now]. *)
Definition is_due (progress : entry) (now : float) : bool :=
  if negb (truthy (nextReview progress)) then true
  else (time_of Date_parse (nextReview progress) <=? now)%float.

Fixpoint dueFilter (u : user) (ws : list word) (now : float)
  : list word * user :=
  match ws with
  | [] => ([], u)
  | w :: ws =>
      let '(progress, u) := getProgressEntry u (_id w) in
      let '(rest, u) := dueFilter u ws now in
      (if is_due progress now then w :: rest else rest, u)
  end.

(** [GET /api/flashcards/due] *)
Definition get_due (d : db) (userId : string) (now : float)
  : response (list (word * entry)) :=
  if negb (isValidObjectId (VStr userId)) then Rejected 400 "Invalid user ID"
  else
    match users d !! userId with
    | None => Rejected 404 "User not found"
    | Some u =>
        let '(due, u) := dueFilter u (catalog d) now in
        Json (fst (wordsWithProgress u due))
    end.

End Routes.
End Flashcards.

(** ** routes/words.js *)

Module Words.
Import Js Store.

(** [user?.progress?.words?.map?.get(id) || {}] *)
Definition map_get (u : option user) (id : string) : entry :=
  match ((u ≫= progress) ≫= words) ≫= words_map with
  | Some m => default no_fields (m !! id)
  | None => no_fields
  end.

Definition merge (progress : entry) : entry :=
  Entry (or_else (ease progress) (VNum 2.5))
        (or_else (interval progress) (VNum 0))
        (or_else (reviewCount progress) (VNum 0))
        (or_else (lastReviewed progress) VNull)
        (or_else (nextReview progress) VNull).

(** The merge of [GET /api/words] over the page of words its query found. *)
Definition wordsWithProgress (d : db) (userId : string) (page : list word)
  : list (word * entry) :=
  List.map (fun w => (w, merge (map_get (users d !! userId) (_id w)))) page.

(** The pagination of [GET /api/words] (lines 52-54), from what [parseInt]
    made of the [page] and [limit] parameters (an integer, or NaN). *)
Definition pageNum (page : float) : float := Math_max 1 page.

Definition limitNum (limit : float) : float := Math_min 100 (Math_max 1 limit).

Definition skip (page limit : float) : float :=
  ((pageNum page - 1) * limitNum limit)%float.

(** [$unset] of [progress.words.map.<id>] in a user that has
    [progress.words.map]. *)
Definition unset_map_key (id : string) (u : user) : user :=
  match progress u with
  | Some p =>
      match words p with
      | Some w =>
          match words_map w with
          | Some m =>
              User (Some (Progress (Some (Words (by_id w) (Some (delete id m))))
                                   (wordsHistory p) (mastered p) (needsReview p)))
          | None => u
          end
      | None => u
      end
  | None => u
  end.

(** [DELETE /api/words/:id] *)
Definition delete_word (d : db) (id : string)
  : Flashcards.response string * db :=
  if existsb (fun w => String.eqb (_id w) id) (catalog d) then
    (Flashcards.Json "Word removed",
     Db (unset_map_key id <$> users d)
        (List.filter (fun w => negb (String.eqb (_id w) id)) (catalog d)))
  else (Flashcards.Rejected 404 "Word not found", d).

End Words.

(** ** The design document's own formulations *)

Module Spec.
Import Js Store.

(** The outcome of a review. *)
Inductive outcome := easy | medium | hard.

Definition difficulty (o : outcome) : value :=
  VStr match o with easy => "easy" | medium => "medium" | hard => "hard" end.

(** The table of the scheduler: the new ease of each outcome ... *)
Definition new_ease (o : outcome) (ease : float) : float :=
  match o with
  | easy => Math_min 3.0 (ease + 0.15)
  | medium => Math_max 1.3 (ease - 0.05)
  | hard => Math_max 1.3 (ease - 0.2)
  end.

(** ... and the new interval, from the prior interval and the new ease. *)
Definition new_interval (o : outcome) (interval newEase : float) : float :=
  match o with
  | easy => if (interval =? 0)%float then 1%float else Math_ceil (interval * newEase)
  | medium => if (interval =? 0)%float then 1%float else Math_ceil (interval * 1.2)
  | hard => 1%float
  end.


(** Due: the next review is absent, or not after [now]. *)
Definition due (Date_parse : string -> float) (e : entry) (now : float) : bool :=
  match nextReview e with
  | VNull => true
  | t => (time_of Date_parse t <=? now)%float
  end.

End Spec.

(** ** A small database for the examples *)

Module Examples.
Import Js Store Flashcards.

(** The database of the examples: one user without progress and one word. *)
Definition user_id : string := "aaaaaaaaaaaaaaaaaaaaaaaa".
Definition word_id : string := "0123456789abcdef01234567".
Definition ola : word := Word word_id "ola" "hello".
Definition db0 : db := Db {[ user_id := User None ]} [ola].
Definition no_date_string : float -> string := fun _ => "".

(** The database after one easy review of the word. *)
Definition db1 : db :=
  snd (post_review no_date_string db0 user_id (VStr word_id) (VStr "easy")
         1700000000000).

End Examples.

(** ** Binary64 numbers as real numbers *)

Module Binary64.

(** The value [m * 2^e], and the value of a finite number. *)
Definition bpow (e : Z) : R := powerRZ 2 e.
Definition F2R (m e : Z) : R := (IZR m * bpow e)%R.
Definition B2R (x : spec_float) : R :=
  match x with
  | S754_finite s m e => F2R (cond_Zopp s (Z.pos m)) e
  | _ => 0%R
  end.

(** Shifting right keeps the quotient, and the two extra bits are clear
    when the division is exact. *)
Definition shr_inv (m k : Z) (mrs : shr_record) : Prop :=
  shr_m mrs = m / 2 ^ k /\ (shr_r mrs || shr_s mrs = true -> m mod 2 ^ k <> 0).

(** The second half of [binary_round_aux]: the carry of the rounding and
    the overflow test. *)
Definition finish (m1 t : Z) : spec_float :=
  let '(mrs, e) := shr_fexp prec emax m1 t loc_Exact in
  match shr_m mrs with
  | Z0 => S754_zero false
  | Z.pos m => if e <=? emax - prec then S754_finite false m e else S754_infinity false
  | Z.neg _ => S754_nan
  end.

(** What the operations guarantee about a result [r] computed from the
    exact positive value [x]: [r] is a canonical number, not negative, and no
    representable number lies strictly between [x] and [r]. *)
Definition rounds_to (x : R) (r : spec_float) : Prop :=
  SpecFloat.valid_binary prec emax r = true
  /\ (r = S754_zero false \/ r = S754_infinity false
      \/ exists m e, r = S754_finite false m e)
  /\ (forall mf ef, SpecFloat.bounded prec emax mf ef = true ->
        (F2R (Z.pos mf) ef <= x)%R -> SFleb (S754_finite false mf ef) r = true)
  /\ (forall mf ef, SpecFloat.bounded prec emax mf ef = true ->
        (x <= F2R (Z.pos mf) ef)%R -> SFleb r (S754_finite false mf ef) = true)
  /\ ((bpow 1024 <= x)%R -> r = S754_infinity false).

(** The double nearest to a whole number. *)
Definition of_Z (z : Z) : float := SF2Prim (binary_normalize prec emax z 0 false).



End Binary64.

(** * Properties *)

(** ** Rounding of binary64 operations

    The operations on primitive floats are specified by those of
    [SpecFloat]; this part relates their results to the exact real values,
    for the positive numbers the scheduler works with. *)

Module Rounding.
Import Js Binary64.


Lemma bpow_pos e : (0 < bpow e)%R.
Proof. apply powerRZ_lt. lra. Qed.

Lemma bpow_add a b : bpow (a + b) = (bpow a * bpow b)%R.
Proof. apply powerRZ_add. lra. Qed.

Lemma bpow_Z n : 0 <= n -> bpow n = IZR (2 ^ n).
Proof.
  intros Hn. unfold bpow.
  destruct n as [|p|p]; [reflexivity| |lia].
  simpl powerRZ. rewrite pow_IZR. now rewrite positive_nat_Z.
Qed.

Lemma F2R_shift m e a : a <= e -> F2R m e = F2R (m * 2 ^ (e - a)) a.
Proof.
  intros H. unfold F2R.
  replace e with ((e - a) + a) at 1 by lia.
  rewrite bpow_add, bpow_Z by lia. rewrite mult_IZR. ring.
Qed.

Lemma F2R_le m1 m2 e : (F2R m1 e <= F2R m2 e)%R <-> m1 <= m2.
Proof.
  unfold F2R. pose proof (bpow_pos e). split; intros H1.
  - apply le_IZR. apply Rmult_le_reg_r with (bpow e); assumption.
  - apply Rmult_le_compat_r; [lra|]. now apply IZR_le.
Qed.

Lemma F2R_lt m1 m2 e : (F2R m1 e < F2R m2 e)%R <-> m1 < m2.
Proof.
  unfold F2R. pose proof (bpow_pos e). split; intros H1.
  - apply lt_IZR. apply Rmult_lt_reg_r with (bpow e); assumption.
  - apply Rmult_lt_compat_r; [lra|]. now apply IZR_lt.
Qed.

Lemma digits2_bounds m :
  2 ^ (Z.pos (digits2_pos m) - 1) <= Z.pos m < 2 ^ Z.pos (digits2_pos m).
Proof.
  induction m as [m IH|m IH|]; simpl digits2_pos.
  - rewrite Pos2Z.inj_succ.
    replace (Z.succ (Z.pos (digits2_pos m)) - 1) with (Z.succ (Z.pos (digits2_pos m) - 1)) by lia.
    rewrite !Z.pow_succ_r by lia. lia.
  - rewrite Pos2Z.inj_succ.
    replace (Z.succ (Z.pos (digits2_pos m)) - 1) with (Z.succ (Z.pos (digits2_pos m) - 1)) by lia.
    rewrite !Z.pow_succ_r by lia. lia.
  - simpl. lia.
Qed.

(* digits are determined by bounds *)
Lemma digits2_unique m d : 0 < d -> 2 ^ (d - 1) <= Z.pos m < 2 ^ d -> Z.pos (digits2_pos m) = d.
Proof.
  intros Hd [H1 H2]. pose proof (digits2_bounds m) as [H3 H4].
  set (d' := Z.pos (digits2_pos m)) in *.
  assert (Hd' : 0 < d') by (unfold d'; lia).
  destruct (Z.lt_trichotomy d d') as [Hlt|[Heq|Hgt]]; [|auto|].
  - assert (2 ^ d <= 2 ^ (d' - 1)) by (apply Z.pow_le_mono_r; lia). lia.
  - assert (2 ^ d' <= 2 ^ (d - 1)) by (apply Z.pow_le_mono_r; lia). lia.
Qed.

Lemma fexp_eq z : fexp prec emax z = Z.max (z - 53) (-1074).
Proof. reflexivity. Qed.


Lemma shr_1_inv m k mrs :
  0 <= m -> 0 <= k -> shr_inv m k mrs -> shr_inv m (k + 1) (shr_1 mrs).
Proof.
  intros Hm Hk [Hq Hrs].
  assert (Hp : 0 < 2 ^ k) by (apply Z.pow_pos_nonneg; lia).
  assert (Hq0 : 0 <= m / 2 ^ k) by (apply Z.div_pos; lia).
  assert (Hdiv : m / 2 ^ (k + 1) = m / 2 ^ k / 2).
  { rewrite Z.pow_add_r, Z.pow_1_r by lia. now rewrite Z.div_div by lia. }
  assert (Hmod : forall c, m / 2 ^ k = 2 * c -> m mod 2 ^ k = 0 -> m mod 2 ^ (k + 1) = 0).
  { intros c Hc Hz. rewrite Z.pow_add_r, Z.pow_1_r by lia.
    pose proof (Z.div_mod m (2 ^ k)) as E. rewrite Hc, Hz in E.
    replace m with (c * (2 ^ k * 2)) by lia. apply Z.mod_mul. lia. }
  assert (Hmod' : m mod 2 ^ (k + 1) = 0 -> m mod 2 ^ k = 0 /\ exists c, m / 2 ^ k = 2 * c).
  { rewrite Z.pow_add_r, Z.pow_1_r by lia. intros Hz.
    apply Z.mod_divide in Hz; [|lia]. destruct Hz as [c Hc]. split.
    - subst m. replace (c * (2 ^ k * 2)) with ((c * 2) * 2 ^ k) by ring.
      apply Z.mod_mul. lia.
    - exists c. subst m. replace (c * (2 ^ k * 2)) with ((2 * c) * 2 ^ k) by ring.
      apply Z.div_mul. lia. }
  destruct mrs as [mk r s]. simpl in Hq, Hrs. unfold shr_inv.
  rewrite Hdiv, <- Hq.
  assert (Hold : m mod 2 ^ (k + 1) = 0 -> r || s = false).
  { intros Hz. destruct (Hmod' Hz) as [Hz' _].
    destruct (r || s); [exfalso; now apply Hrs|reflexivity]. }
  assert (Heven : m mod 2 ^ (k + 1) = 0 -> exists c, mk = 2 * c).
  { intros Hz. destruct (Hmod' Hz) as [_ [c Hc]]. exists c. congruence. }
  destruct mk as [|[p|p|]|p]; simpl; try lia.
  - split; [reflexivity|]. intros H Hz. rewrite (Hold Hz) in H. discriminate.
  - split; [rewrite Pos2Z.inj_xI; apply Z.div_unique with 1; lia|].
    intros _ Hz. destruct (Heven Hz) as [c Hc]. lia.
  - split; [rewrite Pos2Z.inj_xO; apply Z.div_unique with 0; lia|].
    intros H Hz. rewrite (Hold Hz) in H. discriminate.
  - split; [reflexivity|]. intros _ Hz. destruct (Heven Hz) as [c Hc]. lia.
Qed.

Lemma shr_iter_inv m p : 0 <= m ->
  forall k mrs, 0 <= k -> shr_inv m k mrs ->
    shr_inv m (k + Z.pos p) (SpecFloat.iter_pos shr_1 p mrs).
Proof.
  intros Hm. induction p as [p IH|p IH|]; intros k mrs Hk H; simpl.
  - replace (k + Z.pos p~1) with (((k + 1) + Z.pos p) + Z.pos p) by lia.
    apply IH; [lia|]. apply IH; [lia|]. now apply shr_1_inv.
  - replace (k + Z.pos p~0) with ((k + Z.pos p) + Z.pos p) by lia.
    apply IH; [lia|]. now apply IH.
  - now apply shr_1_inv.
Qed.

Lemma shr_inv_init m : shr_inv m 0 (Build_shr_record m false false).
Proof. split; simpl; [now rewrite Z.div_1_r|discriminate]. Qed.

(** The first shift of [binary_round_aux] on an exact input. *)
Lemma shr_exact m e n : 0 <= m -> 0 <= n ->
  let '(mrs, e') := shr (Build_shr_record m false false) e n in
  e' = e + n /\ shr_inv m n mrs.
Proof.
  intros Hm Hn. destruct n as [|p|p]; simpl; [| |lia].
  - split; [lia|apply shr_inv_init].
  - split; [reflexivity|].
    apply (shr_iter_inv m p Hm 0 _ (Z.le_refl 0) (shr_inv_init m)).
Qed.

Lemma round_nearest_even_bounds q mrs :
  let m1 := round_nearest_even q (loc_of_shr_record mrs) in
  q <= m1 <= q + 1 /\ (m1 = q + 1 -> shr_r mrs || shr_s mrs = true).
Proof.
  destruct mrs as [m [|] [|]]; cbn -[Z.add].
  - split; [lia|reflexivity].
  - destruct (Z.even q); split; try lia; reflexivity.
  - split; [lia|intros; lia].
  - split; [lia|intros; lia].
Qed.

Lemma bpow_le a b : a <= b -> (bpow a <= bpow b)%R.
Proof.
  intros H. replace b with ((b - a) + a) by lia.
  rewrite bpow_add, (bpow_Z (b - a)) by lia.
  pose proof (bpow_pos a).
  assert (Hp : 0 < 2 ^ (b - a)) by (apply Z.pow_pos_nonneg; lia).
  assert (H1 : 1 <= 2 ^ (b - a)) by lia.
  apply IZR_le in H1. nra.
Qed.

Lemma F2R_exp_le m a b : 0 <= m -> a <= b -> (F2R m a <= F2R m b)%R.
Proof.
  intros Hm H. unfold F2R. apply Rmult_le_compat_l; [now apply IZR_le|now apply bpow_le].
Qed.

(** Canonical mantissas and exponents. *)
Lemma bounded_inv m e : SpecFloat.bounded prec emax m e = true ->
  -1074 <= e <= 971 /\ Z.pos m < 2 ^ 53 /\ (e = -1074 \/ 2 ^ 52 <= Z.pos m).
Proof.
  unfold SpecFloat.bounded, canonical_mantissa. rewrite fexp_eq.
  intros H. apply andb_prop in H as [H1 H2].
  apply Z.eqb_eq in H1. apply Z.leb_le in H2.
  change (emax - prec) with 971 in H2.
  pose proof (digits2_bounds m) as [Hlo Hhi].
  set (d := Z.pos (digits2_pos m)) in *.
  assert (Hd : d <= 53) by lia.
  assert (2 ^ d <= 2 ^ 53) by (apply Z.pow_le_mono_r; lia).
  split; [lia|]. split; [lia|].
  destruct (Z.eq_dec e (-1074)) as [|Hne]; [now left|right].
  assert (d = 53) as Hd53 by lia. rewrite Hd53 in Hlo. exact Hlo.
Qed.

Lemma bounded_intro m e :
  -1074 <= e <= 971 -> Z.pos m < 2 ^ 53 -> (e = -1074 \/ 2 ^ 52 <= Z.pos m) ->
  SpecFloat.bounded prec emax m e = true.
Proof.
  intros He Hm Hc. unfold SpecFloat.bounded, canonical_mantissa. rewrite fexp_eq.
  apply andb_true_intro. split; [|apply Z.leb_le; change (emax - prec) with 971; lia].
  apply Z.eqb_eq.
  pose proof (digits2_bounds m) as [Hlo Hhi].
  set (d := Z.pos (digits2_pos m)) in *.
  assert (Hd : d <= 53).
  { destruct (Z.le_gt_cases d 53) as [|Hgt]; [assumption|].
    assert (2 ^ 53 <= 2 ^ (d - 1)) by (apply Z.pow_le_mono_r; lia). lia. }
  destruct Hc as [->|Hc]; [lia|].
  assert (d = 53).
  { destruct (Z.eq_dec d 53) as [|Hne]; [assumption|].
    assert (2 ^ d <= 2 ^ 52) by (apply Z.pow_le_mono_r; lia). lia. }
  lia.
Qed.

(** On canonical positive numbers the comparison of [SpecFloat] is the
    comparison of the values. *)
Lemma F2R_lt_exp m1 e1 m2 e2 :
  m1 < 2 ^ 53 -> 2 ^ 52 <= m2 -> e1 < e2 ->
  (F2R m1 e1 < F2R m2 e2)%R.
Proof.
  intros H1 H2 He. rewrite (F2R_shift m2 e2 e1) by lia.
  apply F2R_lt.
  assert (2 ^ 1 <= 2 ^ (e2 - e1)) by (apply Z.pow_le_mono_r; lia).
  change (2 ^ 1) with 2 in H. nia.
Qed.

Lemma SFleb_finite m1 e1 m2 e2 :
  SpecFloat.bounded prec emax m1 e1 = true -> SpecFloat.bounded prec emax m2 e2 = true ->
  SFleb (S754_finite false m1 e1) (S754_finite false m2 e2) = true
  <-> (F2R (Z.pos m1) e1 <= F2R (Z.pos m2) e2)%R.
Proof.
  intros B1 B2. apply bounded_inv in B1 as (He1 & Hm1 & Hc1).
  apply bounded_inv in B2 as (He2 & Hm2 & Hc2).
  unfold SFleb, SFcompare.
  destruct (Z.compare_spec e1 e2) as [->|Hlt|Hgt].
  - rewrite F2R_le. change (Pos.compare_cont Eq m1 m2) with (Pos.compare m1 m2).
    rewrite Pos2Z.inj_compare.
    destruct (Z.compare_spec (Z.pos m1) (Z.pos m2)); split; intros; try lia; try reflexivity; discriminate.
  - split; [intros _|reflexivity].
    apply Rlt_le, F2R_lt_exp; lia.
  - split; [discriminate|]. intros H.
    assert (F2R (Z.pos m2) e2 < F2R (Z.pos m1) e1)%R by (apply F2R_lt_exp; lia). lra.
Qed.

Lemma SFltb_finite m1 e1 m2 e2 :
  SpecFloat.bounded prec emax m1 e1 = true -> SpecFloat.bounded prec emax m2 e2 = true ->
  SFltb (S754_finite false m1 e1) (S754_finite false m2 e2) = true
  <-> (F2R (Z.pos m1) e1 < F2R (Z.pos m2) e2)%R.
Proof.
  intros B1 B2. apply bounded_inv in B1 as (He1 & Hm1 & Hc1).
  apply bounded_inv in B2 as (He2 & Hm2 & Hc2).
  unfold SFltb, SFcompare.
  destruct (Z.compare_spec e1 e2) as [->|Hlt|Hgt].
  - rewrite F2R_lt. change (Pos.compare_cont Eq m1 m2) with (Pos.compare m1 m2).
    rewrite Pos2Z.inj_compare.
    destruct (Z.compare_spec (Z.pos m1) (Z.pos m2)); split; intros; try lia; try reflexivity; discriminate.
  - split; [intros _|reflexivity].
    apply F2R_lt_exp; lia.
  - split; [discriminate|]. intros H.
    assert (F2R (Z.pos m2) e2 < F2R (Z.pos m1) e1)%R by (apply F2R_lt_exp; lia). lra.
Qed.


Lemma finish_zero t : -1074 <= t -> finish 0 t = S754_zero false.
Proof.
  intros Ht. unfold finish, shr_fexp. rewrite fexp_eq. simpl Zdigits2.
  unfold shr. destruct (Z.max (0 + t - 53) (-1074) - t) eqn:E; try reflexivity. lia.
Qed.

Lemma finish_small p t :
  -1074 <= t -> Z.pos p < 2 ^ 53 -> (t = -1074 \/ 2 ^ 52 <= Z.pos p) ->
  finish (Z.pos p) t =
    if t <=? 971 then S754_finite false p t else S754_infinity false.
Proof.
  intros Ht Hp Hc. unfold finish, shr_fexp. rewrite fexp_eq. simpl Zdigits2.
  pose proof (digits2_bounds p) as [Hlo Hhi].
  set (d := Z.pos (digits2_pos p)) in *.
  assert (Hd : d <= 53).
  { destruct (Z.le_gt_cases d 53) as [|Hgt]; [assumption|].
    assert (2 ^ 53 <= 2 ^ (d - 1)) by (apply Z.pow_le_mono_r; lia). lia. }
  unfold shr. destruct (Z.max (d + t - 53) (-1074) - t) eqn:E; try reflexivity. lia.
Qed.

Lemma finish_carry t :
  -1074 <= t ->
  finish (2 ^ 53) t =
    if t + 1 <=? 971 then S754_finite false (Z.to_pos (2 ^ 52)) (t + 1)
    else S754_infinity false.
Proof.
  intros Ht. unfold finish, shr_fexp. rewrite fexp_eq.
  change (Zdigits2 (2 ^ 53)) with 54.
  replace (Z.max (54 + t - 53) (-1074) - t) with 1 by lia.
  reflexivity.
Qed.

(** Rounding an exact positive number [m * 2^e] that has enough digits:
    the mantissa is divided by [2^(t - e)] and rounded to one of the two
    neighbouring integers. *)
Lemma round_aux_desc m e :
  let t := fexp prec emax (Z.pos (digits2_pos m) + e) in
  e <= t ->
  exists m1,
    binary_round_aux prec emax false (Z.pos m) e loc_Exact = finish m1 t
    /\ Z.pos m / 2 ^ (t - e) <= m1 <= Z.pos m / 2 ^ (t - e) + 1
    /\ (m1 = Z.pos m / 2 ^ (t - e) + 1 -> Z.pos m mod 2 ^ (t - e) <> 0)
    /\ -1074 <= t
    /\ Z.pos m / 2 ^ (t - e) < 2 ^ 53
    /\ (t = -1074 \/ 2 ^ 52 <= Z.pos m / 2 ^ (t - e)).
Proof.
  intros t Ht.
  pose proof (shr_exact (Z.pos m) e (t - e)) as Hs.
  assert (Hshr : shr_fexp prec emax (Z.pos m) e loc_Exact
                 = shr (Build_shr_record (Z.pos m) false false) e (t - e)) by reflexivity.
  destruct (shr (Build_shr_record (Z.pos m) false false) e (t - e)) as [mrs e'] eqn:E.
  destruct Hs as [He' [Hq Hrs]]; [lia|lia|].
  pose proof (round_nearest_even_bounds (shr_m mrs) mrs) as [Hb Hup].
  exists (round_nearest_even (shr_m mrs) (loc_of_shr_record mrs)).
  replace e' with t in * by lia.
  split.
  { unfold binary_round_aux, finish. rewrite Hshr. reflexivity. }
  rewrite <- Hq.
  split; [exact Hb|]. split; [intros H; apply Hrs, Hup, H|].
  pose proof (digits2_bounds m) as [Hlo Hhi].
  set (d := Z.pos (digits2_pos m)) in *.
  assert (Hd : 0 < d) by (unfold d; lia).
  assert (Ht' : t = Z.max (d + e - 53) (-1074)) by (unfold t; now rewrite fexp_eq).
  split; [lia|].
  assert (Hn : 0 <= t - e) by lia.
  assert (Hpn : 0 < 2 ^ (t - e)) by (apply Z.pow_pos_nonneg; lia).
  rewrite Hq. split.
  - apply Z.div_lt_upper_bound; [lia|].
    rewrite <- Z.pow_add_r by lia.
    assert (2 ^ d <= 2 ^ (t - e + 53)) by (apply Z.pow_le_mono_r; lia). lia.
  - destruct (Z.eq_dec t (-1074)) as [|Hne]; [now left|right].
    assert (Hte : t - e = d - 53) by lia.
    apply Z.div_le_lower_bound; [lia|].
    rewrite <- Z.pow_add_r by lia.
    replace (t - e + 52) with (d - 1) by lia. exact Hlo.
Qed.


Lemma F2R_pos m e : 0 < m -> (0 < F2R m e)%R.
Proof.
  intros H. unfold F2R. apply Rmult_lt_0_compat; [now apply IZR_lt|apply bpow_pos].
Qed.

Lemma round_aux_rounds m e :
  e <= fexp prec emax (Z.pos (digits2_pos m) + e) ->
  rounds_to (F2R (Z.pos m) e)
            (binary_round_aux prec emax false (Z.pos m) e loc_Exact).
Proof.
  intros Hpre.
  destruct (round_aux_desc m e Hpre) as (m1 & -> & Hb & Hup & Ht & Hq53 & Hc).
  set (t := fexp prec emax (Z.pos (digits2_pos m) + e)) in *.
  set (P := 2 ^ (t - e)) in *.
  set (q := Z.pos m / P) in *.
  assert (HP : 0 < P) by (apply Z.pow_pos_nonneg; lia).
  assert (Hq0 : 0 <= q) by (apply Z.div_pos; lia).
  assert (HqP : q * P <= Z.pos m) by (rewrite Z.mul_comm; apply Z.mul_div_le; lia).
  assert (Hshift : forall k, F2R k t = F2R (k * P) e)
    by (intros k; apply F2R_shift; lia).
  (* every representable number below the exact value is below the result *)
  assert (A : forall mf ef, SpecFloat.bounded prec emax mf ef = true ->
            (F2R (Z.pos mf) ef <= F2R (Z.pos m) e)%R ->
            (F2R (Z.pos mf) ef <= F2R m1 t)%R).
  { intros mf ef Bf Hle. apply bounded_inv in Bf as (Hef & Hmf & Hcf).
    destruct (Z.le_gt_cases t ef) as [Hge|Hlt].
    - rewrite (F2R_shift (Z.pos mf) ef t) in * by lia.
      set (k := Z.pos mf * 2 ^ (ef - t)) in *.
      rewrite Hshift in Hle. apply F2R_le in Hle. apply F2R_le.
      assert (k <= q) by (apply Z.div_le_lower_bound; lia). lia.
    - apply Rlt_le, F2R_lt_exp; lia. }
  (* and every one above it is above the result *)
  assert (B : forall mf ef, SpecFloat.bounded prec emax mf ef = true ->
            (F2R (Z.pos m) e <= F2R (Z.pos mf) ef)%R ->
            (F2R m1 t <= F2R (Z.pos mf) ef)%R).
  { intros mf ef Bf Hle. apply bounded_inv in Bf as (Hef & Hmf & Hcf).
    destruct (Z.eq_dec m1 q) as [->|Hne].
    - rewrite Hshift. apply Rle_trans with (2 := Hle). now apply F2R_le.
    - assert (Hm1 : m1 = q + 1) by lia. specialize (Hup Hm1).
      assert (HqP' : q * P < Z.pos m).
      { pose proof (Z.div_mod (Z.pos m) P ltac:(lia)) as E.
        pose proof (Z.mod_pos_bound (Z.pos m) P HP). fold q in E. lia. }
      destruct (Z.le_gt_cases t ef) as [Hge|Hlt].
      + rewrite (F2R_shift (Z.pos mf) ef t) in * by lia.
        set (k := Z.pos mf * 2 ^ (ef - t)) in *.
        rewrite Hshift in Hle. apply F2R_le in Hle. apply F2R_le.
        assert (q < k) by (apply Z.mul_lt_mono_pos_r with P; lia). lia.
      + exfalso.
        assert (F2R (Z.pos mf) ef < F2R q t)%R by (apply F2R_lt_exp; lia).
        assert (F2R q t <= F2R (Z.pos m) e)%R by (rewrite Hshift; now apply F2R_le).
        lra. }
  (* an exact value of 2^1024 or more has a result exponent above 971 *)
  assert (O : (bpow 1024 <= F2R (Z.pos m) e)%R -> 971 < t).
  { intros Ho. destruct (Z.le_gt_cases t 971) as [Hle|]; [exfalso|lia].
    assert (Z.pos m < (q + 1) * P).
    { pose proof (Z.div_mod (Z.pos m) P ltac:(lia)) as E.
      pose proof (Z.mod_pos_bound (Z.pos m) P HP). fold q in E. lia. }
    assert (F2R (Z.pos m) e < F2R (q + 1) t)%R by (rewrite Hshift; now apply F2R_lt).
    assert (F2R (q + 1) t <= F2R (2 ^ 53) t)%R by (apply F2R_le; lia).
    assert (F2R (2 ^ 53) t <= F2R (2 ^ 53) 971)%R by (apply F2R_exp_le; lia).
    assert (F2R (2 ^ 53) 971 = bpow 1024).
    { unfold F2R. rewrite <- (bpow_Z 53) by lia. rewrite <- bpow_add. reflexivity. }
    lra. }
  assert (Hm1 : m1 = 0 \/ (0 < m1 < 2 ^ 53) \/ m1 = 2 ^ 53) by lia.
  destruct Hm1 as [-> | [Hm1 | ->]].
  - rewrite finish_zero by lia. split; [reflexivity|]. split; [now left|]. split.
    + intros mf ef Bf Hle. exfalso. specialize (A mf ef Bf Hle).
      pose proof (F2R_pos (Z.pos mf) ef ltac:(lia)).
      unfold F2R in A at 2. rewrite Rmult_0_l in A. lra.
    + split; [reflexivity|]. intros Ho. specialize (O Ho). lia.
  - destruct m1 as [|p|p]; try lia.
    rewrite finish_small by lia.
    destruct (Z.leb_spec t 971) as [Hle|Hgt].
    + assert (Bp : SpecFloat.bounded prec emax p t = true) by (apply bounded_intro; lia).
      split; [exact Bp|]. split; [right; right; eauto|]. split; [|split].
      * intros mf ef Bf Hx. apply SFleb_finite; auto.
      * intros mf ef Bf Hx. apply SFleb_finite; auto.
      * intros Ho. specialize (O Ho). lia.
    + split; [reflexivity|]. split; [right; now left|]. split; [reflexivity|].
      split; [|reflexivity].
      intros mf ef Bf Hx. exfalso. specialize (B mf ef Bf Hx).
      apply bounded_inv in Bf as (Hef & Hmf & Hcf).
      assert (F2R (Z.pos mf) ef < F2R (Z.pos p) t)%R by (apply F2R_lt_exp; lia).
      lra.
  - rewrite finish_carry by lia.
    assert (Hv : F2R (2 ^ 52) (t + 1) = F2R (2 ^ 53) t).
    { rewrite (F2R_shift (2 ^ 52) (t + 1) t) by lia.
      replace (t + 1 - t) with 1 by lia. reflexivity. }
    destruct (Z.leb_spec (t + 1) 971) as [Hle|Hgt].
    + assert (Bp : SpecFloat.bounded prec emax (Z.to_pos (2 ^ 52)) (t + 1) = true)
        by (apply bounded_intro; [lia|reflexivity|right; reflexivity]).
      split; [exact Bp|]. split; [right; right; eauto|].
      change (Z.pos (Z.to_pos (2 ^ 52))) with (2 ^ 52) in *.
      split; [|split].
      * intros mf ef Bf Hx. apply SFleb_finite; auto.
        change (Z.pos (Z.to_pos (2 ^ 52))) with (2 ^ 52). rewrite Hv. auto.
      * intros mf ef Bf Hx. apply SFleb_finite; auto.
        change (Z.pos (Z.to_pos (2 ^ 52))) with (2 ^ 52). rewrite Hv. auto.
      * intros Ho. specialize (O Ho). lia.
    + split; [reflexivity|]. split; [right; now left|]. split; [reflexivity|].
      split; [|reflexivity].
      intros mf ef Bf Hx. exfalso. specialize (B mf ef Bf Hx).
      apply bounded_inv in Bf as (Hef & Hmf & Hcf).
      destruct (Z.eq_dec ef t) as [->|Hne].
      * apply F2R_le in B. lia.
      * assert (F2R (Z.pos mf) ef < F2R (2 ^ 53) t)%R
          by (apply F2R_lt_exp; [lia|apply Z.pow_le_mono_r; lia|lia]).
        lra.
Qed.

Lemma iter_xO m d : Z.pos (Pos.iter xO m d) = Z.pos m * 2 ^ Z.pos d.
Proof.
  induction d as [|d IH] using Pos.peano_ind.
  - simpl. lia.
  - rewrite Pos.iter_succ, Pos2Z.inj_xO, IH, Pos2Z.inj_succ, Z.pow_succ_r by lia. ring.
Qed.

Lemma shl_align_spec mx ex ex' :
  snd (shl_align mx ex ex') = Z.min ex ex'
  /\ Z.pos (fst (shl_align mx ex ex')) = Z.pos mx * 2 ^ (ex - Z.min ex ex').
Proof.
  unfold shl_align. destruct (ex' - ex) as [|d|d] eqn:E; simpl.
  - replace (Z.min ex ex') with ex by lia. rewrite Z.sub_diag. simpl. lia.
  - replace (Z.min ex ex') with ex by lia. rewrite Z.sub_diag. simpl. lia.
  - replace (Z.min ex ex') with ex' by lia. rewrite iter_xO.
    replace (ex - ex') with (Z.pos d) by lia. split; [lia|reflexivity].
Qed.

Lemma digits2_shift m k : 0 <= k ->
  forall p, Z.pos p = Z.pos m * 2 ^ k ->
  Z.pos (digits2_pos p) = Z.pos (digits2_pos m) + k.
Proof.
  intros Hk p Hp. pose proof (digits2_bounds m) as [Hlo Hhi].
  assert (0 < 2 ^ k) by (apply Z.pow_pos_nonneg; lia).
  apply digits2_unique; [lia|]. rewrite Hp.
  replace (Z.pos (digits2_pos m) + k - 1) with ((Z.pos (digits2_pos m) - 1) + k) by lia.
  rewrite !Z.pow_add_r by lia. nia.
Qed.

(** [binary_round] first gives the number enough digits. *)
Lemma binary_round_rounds mx ex :
  rounds_to (F2R (Z.pos mx) ex) (binary_round prec emax false mx ex).
Proof.
  unfold binary_round.
  set (t := fexp prec emax (Z.pos (digits2_pos mx) + ex)).
  destruct (shl_align_spec mx ex t) as [He Hm].
  destruct (shl_align mx ex t) as [mz ez]. simpl in He, Hm. subst ez.
  assert (Hv : F2R (Z.pos mx) ex = F2R (Z.pos mz) (Z.min ex t)).
  { rewrite (F2R_shift (Z.pos mx) ex (Z.min ex t)) by lia. now rewrite Hm. }
  rewrite Hv. apply round_aux_rounds.
  rewrite (digits2_shift mx (ex - Z.min ex t)) by (lia || assumption).
  replace (Z.pos (digits2_pos mx) + (ex - Z.min ex t) + Z.min ex t)
    with (Z.pos (digits2_pos mx) + ex) by lia.
  fold t. lia.
Qed.

(** Products, sums and differences of positive canonical numbers. *)
Lemma F2R_mul m1 e1 m2 e2 : (F2R m1 e1 * F2R m2 e2)%R = F2R (m1 * m2) (e1 + e2).
Proof. unfold F2R. rewrite mult_IZR, bpow_add. ring. Qed.

Lemma F2R_add m1 m2 e : (F2R m1 e + F2R m2 e)%R = F2R (m1 + m2) e.
Proof. unfold F2R. rewrite plus_IZR. ring. Qed.

Lemma F2R_sub m1 m2 e : (F2R m1 e - F2R m2 e)%R = F2R (m1 - m2) e.
Proof. unfold F2R. rewrite minus_IZR. ring. Qed.

Lemma SFmul_rounds mx ex my ey :
  SpecFloat.bounded prec emax mx ex = true ->
  SpecFloat.bounded prec emax my ey = true ->
  rounds_to (F2R (Z.pos mx) ex * F2R (Z.pos my) ey)
            (SFmul prec emax (S754_finite false mx ex) (S754_finite false my ey)).
Proof.
  intros Bx By. apply bounded_inv in Bx as (Hex & Hmx & Hcx).
  apply bounded_inv in By as (Hey & Hmy & Hcy).
  rewrite F2R_mul. simpl SFmul. rewrite <- Pos2Z.inj_mul.
  apply round_aux_rounds. rewrite fexp_eq.
  destruct (Z.le_gt_cases (ex + ey) (-1074)) as [|Hgt]; [lia|].
  pose proof (digits2_bounds (mx * my)) as [_ Hhi].
  rewrite Pos2Z.inj_mul in Hhi.
  assert (2 ^ 52 <= Z.pos mx * Z.pos my) by nia.
  assert (52 < Z.pos (digits2_pos (mx * my))).
  { apply (Z.pow_lt_mono_r_iff 2); lia. }
  lia.
Qed.

Lemma SFadd_rounds mx ex my ey :
  rounds_to (F2R (Z.pos mx) ex + F2R (Z.pos my) ey)
            (SFadd prec emax (S754_finite false mx ex) (S754_finite false my ey)).
Proof.
  simpl SFadd.
  destruct (shl_align_spec mx ex (Z.min ex ey)) as [_ Hx].
  destruct (shl_align_spec my ey (Z.min ex ey)) as [_ Hy].
  replace (Z.min ex (Z.min ex ey)) with (Z.min ex ey) in Hx by lia.
  replace (Z.min ey (Z.min ex ey)) with (Z.min ex ey) in Hy by lia.
  rewrite (F2R_shift (Z.pos mx) ex (Z.min ex ey)), (F2R_shift (Z.pos my) ey (Z.min ex ey)) by lia.
  rewrite <- Hx, <- Hy, F2R_add. simpl Z.add.
  apply binary_round_rounds.
Qed.

Lemma SFsub_rounds mx ex my ey :
  (F2R (Z.pos my) ey < F2R (Z.pos mx) ex)%R ->
  rounds_to (F2R (Z.pos mx) ex - F2R (Z.pos my) ey)
            (SFsub prec emax (S754_finite false mx ex) (S754_finite false my ey)).
Proof.
  intros Hlt.
  change (SFsub prec emax (S754_finite false mx ex) (S754_finite false my ey))
    with (binary_normalize prec emax
            (Z.pos (fst (shl_align mx ex (Z.min ex ey)))
             - Z.pos (fst (shl_align my ey (Z.min ex ey)))) (Z.min ex ey) false).
  destruct (shl_align_spec mx ex (Z.min ex ey)) as [_ Hx].
  destruct (shl_align_spec my ey (Z.min ex ey)) as [_ Hy].
  replace (Z.min ex (Z.min ex ey)) with (Z.min ex ey) in Hx by lia.
  replace (Z.min ey (Z.min ex ey)) with (Z.min ex ey) in Hy by lia.
  rewrite (F2R_shift (Z.pos mx) ex (Z.min ex ey)), (F2R_shift (Z.pos my) ey (Z.min ex ey)) in * by lia.
  rewrite <- Hx, <- Hy in *. apply F2R_lt in Hlt. rewrite F2R_sub.
  destruct (Z.pos (fst (shl_align mx ex (Z.min ex ey)))
            - Z.pos (fst (shl_align my ey (Z.min ex ey)))) as [|p|p] eqn:E; try lia.
  apply binary_round_rounds.
Qed.

(** The comparison of [SpecFloat] is a lexicographic order on the sign, the
    exponent and the mantissa. *)
Ltac sf_cases :=
  repeat match goal with
  | x : spec_float |- _ => destruct x as [[|]|[|]| |[|] ? ?]
  end.

Ltac cmp_cases :=
  repeat match goal with
  | |- context [Z.compare ?a ?b] => destruct (Z.compare_spec a b)
  | H : context [Z.compare ?a ?b] |- _ => destruct (Z.compare_spec a b)
  | |- context [Pos.compare_cont Eq ?a ?b] =>
      change (Pos.compare_cont Eq a b) with (Pos.compare a b);
      destruct (Pos.compare_spec a b)
  | H : context [Pos.compare_cont Eq ?a ?b] |- _ =>
      change (Pos.compare_cont Eq a b) with (Pos.compare a b) in H;
      destruct (Pos.compare_spec a b)
  end.

Ltac sf_order :=
  unfold SFltb, SFleb, SFeqb, SFcompare; sf_cases; simpl;
  try reflexivity; try discriminate; intros;
  cmp_cases; simpl in *; subst;
  try reflexivity; try discriminate; try lia.

Lemma SFltb_leb_trans x y z :
  SFltb x y = true -> SFleb y z = true -> SFltb x z = true.
Proof. revert x y z. intros x y z. sf_order. Qed.

Lemma SFleb_ltb_trans x y z :
  SFleb x y = true -> SFltb y z = true -> SFltb x z = true.
Proof. sf_order. Qed.

Lemma SFleb_trans x y z :
  SFleb x y = true -> SFleb y z = true -> SFleb x z = true.
Proof. sf_order. Qed.

Lemma SFltb_leb x y : SFltb x y = true -> SFleb x y = true.
Proof. sf_order. Qed.

Lemma SFltb_not_leb x y : SFltb x y = true -> SFleb y x = false.
Proof. sf_order. Qed.

Lemma SFleb_not_ltb x y : SFleb x y = true -> SFltb y x = false.
Proof. sf_order. Qed.

Lemma SFleb_total x y :
  SFeqb x x = true -> SFeqb y y = true -> SFltb x y = false -> SFleb y x = true.
Proof. sf_order. Qed.


Lemma rounds_to_not_nan x r : rounds_to x r -> SFeqb r r = true.
Proof.
  intros (Hv & [->|[->|(m & e & ->)]] & _); try reflexivity.
  unfold SFeqb, SFcompare. rewrite Z.compare_refl.
  change (Pos.compare_cont Eq m m) with (Pos.compare m m). now rewrite Pos.compare_refl.
Qed.

(** Numbers between two positive canonical numbers are positive and
    canonical. *)
Lemma SF_between ml el mh eh x :
  SpecFloat.bounded prec emax ml el = true ->
  SpecFloat.bounded prec emax mh eh = true ->
  SpecFloat.valid_binary prec emax x = true ->
  SFleb (S754_finite false ml el) x = true ->
  SFleb x (S754_finite false mh eh) = true ->
  exists m e, x = S754_finite false m e
    /\ SpecFloat.bounded prec emax m e = true
    /\ (F2R (Z.pos ml) el <= F2R (Z.pos m) e <= F2R (Z.pos mh) eh)%R.
Proof.
  intros Bl Bh Vx Hl Hh.
  destruct x as [s|s| |s m e]; try discriminate.
  - destruct s; discriminate.
  - destruct s; [discriminate|].
    exists m, e. simpl in Vx. split; [reflexivity|]. split; [exact Vx|].
    split; now apply SFleb_finite.
Qed.

Lemma F2R_neg_exp m k : 0 <= k -> F2R m (- k) = (IZR m / IZR (2 ^ k))%R.
Proof.
  intros Hk. unfold F2R, Rdiv. f_equal.
  assert (bpow (- k) * bpow k = 1)%R.
  { rewrite <- bpow_add. replace (- k + k) with 0 by lia. reflexivity. }
  rewrite (bpow_Z k) in H by lia.
  assert (0 < 2 ^ k) by (apply Z.pow_pos_nonneg; lia).
  apply IZR_lt in H0.
  apply Rmult_eq_reg_r with (IZR (2 ^ k)); [|lra].
  rewrite H. field. lra.
Qed.

(** [Math.ceil] of a positive canonical number. *)
Lemma SFceil_pos m e :
  SpecFloat.bounded prec emax m e = true ->
  let c := SFceil (S754_finite false m e) in
  SpecFloat.valid_binary prec emax c = true
  /\ SFleb (S754_finite false m e) c = true
  /\ SFleb (Prim2SF 1) c = true.
Proof.
  intros Bx c. subst c. unfold SFceil.
  assert (B1 : SpecFloat.bounded prec emax 4503599627370496 (-52) = true) by reflexivity.
  assert (V1 : F2R (Z.pos 4503599627370496) (-52) = 1%R).
  { rewrite (F2R_neg_exp _ 52) by lia. change (2 ^ 52) with 4503599627370496. field. }
  change (Prim2SF 1) with (S754_finite false 4503599627370496 (-52)).
  destruct (Z.leb_spec 0 e) as [He|He].
  - split; [exact Bx|]. split.
    + apply SFleb_finite; auto. lra.
    + apply SFleb_finite; auto. rewrite V1.
      rewrite (F2R_shift (Z.pos m) e 0) by lia. unfold F2R. simpl bpow.
      assert (0 < 2 ^ (e - 0)) by (apply Z.pow_pos_nonneg; lia).
      assert (1 <= Z.pos m * 2 ^ (e - 0)) by nia.
      apply IZR_le in H0. lra.
  - set (P := 2 ^ (- e)).
    assert (HP : 0 < P) by (apply Z.pow_pos_nonneg; lia).
    set (k := if Z.pos m mod P =? 0 then Z.pos m / P else Z.pos m / P + 1).
    assert (Hk : Z.pos m <= k * P).
    { pose proof (Z.div_mod (Z.pos m) P ltac:(lia)) as E.
      pose proof (Z.mod_pos_bound (Z.pos m) P HP).
      unfold k. destruct (Z.eqb_spec (Z.pos m mod P) 0); lia. }
    assert (Hk1 : 1 <= k) by nia.
    destruct k as [|p|p] eqn:Ek; try lia.
    change (binary_normalize prec emax (Z.pos p) 0 false)
      with (binary_round prec emax false p 0).
    destruct (binary_round_rounds p 0) as (Hv & _ & Hlo & _).
    split; [exact Hv|]. split.
    + apply Hlo; auto.
      rewrite (F2R_shift (Z.pos p) 0 e) by lia.
      apply F2R_le. replace (0 - e) with (- e) by lia. fold P. lia.
    + apply Hlo; auto. rewrite V1. unfold F2R. simpl bpow.
      apply IZR_le in Hk1. lra.
Qed.

(** ** Primitive floats *)

Lemma is_nan_false x : is_nan x = false <-> SFeqb (Prim2SF x) (Prim2SF x) = true.
Proof.
  unfold is_nan. rewrite FloatAxioms.eqb_spec. destruct (SFeqb _ _); simpl; split; congruence.
Qed.

Lemma float_leb_not_nan_l x y : (x <=? y)%float = true -> is_nan x = false.
Proof.
  rewrite FloatAxioms.leb_spec, is_nan_false. generalize (Prim2SF x), (Prim2SF y).
  intros a b. sf_order.
Qed.

Lemma float_leb_not_nan_r x y : (x <=? y)%float = true -> is_nan y = false.
Proof.
  rewrite FloatAxioms.leb_spec, is_nan_false. generalize (Prim2SF x), (Prim2SF y).
  intros a b. sf_order.
Qed.

Lemma float_leb_refl x : is_nan x = false -> (x <=? x)%float = true.
Proof.
  rewrite FloatAxioms.leb_spec, is_nan_false. generalize (Prim2SF x). intros a. sf_order.
Qed.

Lemma float_leb_trans x y z :
  (x <=? y)%float = true -> (y <=? z)%float = true -> (x <=? z)%float = true.
Proof. rewrite !FloatAxioms.leb_spec. apply SFleb_trans. Qed.

Lemma float_ltb_leb_trans x y z :
  (x <? y)%float = true -> (y <=? z)%float = true -> (x <? z)%float = true.
Proof. rewrite !FloatAxioms.leb_spec, !FloatAxioms.ltb_spec. apply SFltb_leb_trans. Qed.

Lemma float_ltb_leb x y : (x <? y)%float = true -> (x <=? y)%float = true.
Proof. rewrite !FloatAxioms.leb_spec, !FloatAxioms.ltb_spec. apply SFltb_leb. Qed.

Lemma float_leb_total x y :
  is_nan x = false -> is_nan y = false ->
  (x <? y)%float = false -> (y <=? x)%float = true.
Proof. rewrite !is_nan_false, FloatAxioms.leb_spec, FloatAxioms.ltb_spec. apply SFleb_total. Qed.

(** [Math.min] and [Math.max] of two numbers (not NaN) return one of them,
    below (above) both. *)
Lemma Math_min_spec a b : is_nan a = false -> is_nan b = false ->
  (Math_min a b = a \/ Math_min a b = b)
  /\ (Math_min a b <=? a)%float = true /\ (Math_min a b <=? b)%float = true.
Proof.
  intros Ha Hb. unfold Math_min. rewrite Ha, Hb. simpl.
  destruct (a <? b)%float eqn:Hab.
  { split; [now left|]. split; [now apply float_leb_refl|now apply float_ltb_leb]. }
  destruct (b <? a)%float eqn:Hba.
  { split; [now right|]. split; [now apply float_ltb_leb|now apply float_leb_refl]. }
  destruct (get_sign a).
  - split; [now left|]. split; [now apply float_leb_refl|now apply float_leb_total].
  - split; [now right|]. split; [now apply float_leb_total|now apply float_leb_refl].
Qed.

Lemma Math_max_spec a b : is_nan a = false -> is_nan b = false ->
  (Math_max a b = a \/ Math_max a b = b)
  /\ (a <=? Math_max a b)%float = true /\ (b <=? Math_max a b)%float = true.
Proof.
  intros Ha Hb. unfold Math_max. rewrite Ha, Hb. simpl.
  destruct (a <? b)%float eqn:Hab.
  { split; [now right|]. split; [now apply float_ltb_leb|now apply float_leb_refl]. }
  destruct (b <? a)%float eqn:Hba.
  { split; [now left|]. split; [now apply float_leb_refl|now apply float_ltb_leb]. }
  destruct (get_sign a).
  - split; [now right|]. split; [now apply float_leb_total|now apply float_leb_refl].
  - split; [now left|]. split; [now apply float_leb_refl|now apply float_leb_total].
Qed.

(** A number between two positive constants. *)
Lemma between_pos lo hi x ml el mh eh :
  Prim2SF lo = S754_finite false ml el ->
  Prim2SF hi = S754_finite false mh eh ->
  (lo <=? x)%float = true -> (x <=? hi)%float = true ->
  exists m e, Prim2SF x = S754_finite false m e
    /\ SpecFloat.bounded prec emax m e = true
    /\ (F2R (Z.pos ml) el <= F2R (Z.pos m) e <= F2R (Z.pos mh) eh)%R.
Proof.
  intros Hlo Hhi H1 H2. rewrite FloatAxioms.leb_spec in H1, H2.
  pose proof (Prim2SF_valid lo) as Vl. pose proof (Prim2SF_valid hi) as Vh.
  rewrite Hlo in *. rewrite Hhi in *.
  apply SF_between; auto. apply Prim2SF_valid.
Qed.

(** The constants of the scheduler. *)
Lemma F2R_1_3 : (13 / 10 <= F2R 5854679515581645 (-52) <= 14 / 10)%R.
Proof. rewrite (F2R_neg_exp _ 52) by lia. change (2 ^ 52) with 4503599627370496. lra. Qed.

Lemma F2R_3 : F2R 6755399441055744 (-51) = 3%R.
Proof. rewrite (F2R_neg_exp _ 51) by lia. change (2 ^ 51) with 2251799813685248. lra. Qed.

Lemma F2R_0_15 : (0 < F2R 5404319552844595 (-55) <= 1)%R.
Proof. rewrite (F2R_neg_exp _ 55) by lia. change (2 ^ 55) with 36028797018963968. lra. Qed.

Lemma F2R_0_05 : (0 < F2R 7205759403792794 (-57) <= 1)%R.
Proof. rewrite (F2R_neg_exp _ 57) by lia. change (2 ^ 57) with 144115188075855872. lra. Qed.

Lemma F2R_0_2 : (0 < F2R 7205759403792794 (-55) <= 1)%R.
Proof. rewrite (F2R_neg_exp _ 55) by lia. change (2 ^ 55) with 36028797018963968. lra. Qed.

Lemma F2R_1_2 : (119 / 100 <= F2R 5404319552844595 (-52))%R.
Proof. rewrite (F2R_neg_exp _ 52) by lia. change (2 ^ 52) with 4503599627370496. lra. Qed.

Lemma Prim2SF_1_3 : Prim2SF 1.3 = S754_finite false 5854679515581645 (-52).
Proof. reflexivity. Qed.
Lemma Prim2SF_3 : Prim2SF 3 = S754_finite false 6755399441055744 (-51).
Proof. reflexivity. Qed.
Lemma Prim2SF_0_15 : Prim2SF 0.15 = S754_finite false 5404319552844595 (-55).
Proof. reflexivity. Qed.
Lemma Prim2SF_0_05 : Prim2SF 0.05 = S754_finite false 7205759403792794 (-57).
Proof. reflexivity. Qed.
Lemma Prim2SF_0_2 : Prim2SF 0.2 = S754_finite false 7205759403792794 (-55).
Proof. reflexivity. Qed.
Lemma Prim2SF_1_2 : Prim2SF 1.2 = S754_finite false 5404319552844595 (-52).
Proof. reflexivity. Qed.
Lemma Prim2SF_1 : Prim2SF 1 = S754_finite false 4503599627370496 (-52).
Proof. reflexivity. Qed.

Lemma F2R_1 : F2R 4503599627370496 (-52) = 1%R.
Proof. rewrite (F2R_neg_exp _ 52) by lia. change (2 ^ 52) with 4503599627370496. field. Qed.

(** The ease after an easy review stays in the range. *)
Lemma ease_add_range x :
  (1.3 <=? x)%float = true -> (x <=? 3)%float = true ->
  (1.3 <=? Math_min 3 (x + 0.15))%float = true
  /\ (Math_min 3 (x + 0.15) <=? 3)%float = true.
Proof.
  intros Hlo Hhi.
  destruct (between_pos _ _ _ _ _ _ _ Prim2SF_1_3 Prim2SF_3 Hlo Hhi)
    as (m & e & Hx & Bx & Hr).
  assert (Hy : (1.3 <=? x + 0.15)%float = true).
  { rewrite FloatAxioms.leb_spec, FloatAxioms.add_spec, Hx, Prim2SF_0_15, Prim2SF_1_3.
    destruct (SFadd_rounds m e 5404319552844595 (-55)) as (_ & _ & Hl & _).
    apply Hl; [reflexivity|]. pose proof F2R_0_15. lra. }
  assert (Hn : is_nan (x + 0.15) = false) by (eapply float_leb_not_nan_r; eauto).
  destruct (Math_min_spec 3 (x + 0.15) eq_refl Hn) as ([->| ->] & H3 & _).
  - split; reflexivity.
  - split; assumption.
Qed.

(** The ease after a medium or a hard review stays in the range. *)
Lemma ease_sub_range x c mc ec :
  Prim2SF c = S754_finite false mc ec ->
  (0 < F2R (Z.pos mc) ec <= 1)%R ->
  (1.3 <=? x)%float = true -> (x <=? 3)%float = true ->
  (1.3 <=? Math_max 1.3 (x - c))%float = true
  /\ (Math_max 1.3 (x - c) <=? 3)%float = true.
Proof.
  intros Hc Hcr Hlo Hhi.
  destruct (between_pos _ _ _ _ _ _ _ Prim2SF_1_3 Prim2SF_3 Hlo Hhi)
    as (m & e & Hx & Bx & Hr).
  pose proof F2R_1_3. pose proof F2R_3.
  destruct (SFsub_rounds m e mc ec) as (_ & Hs & _ & Hu & _); [lra|].
  assert (Hy : (x - c <=? 3)%float = true).
  { rewrite FloatAxioms.leb_spec, FloatAxioms.sub_spec, Hx, Hc, Prim2SF_3.
    apply Hu; [reflexivity|]. lra. }
  assert (Hn : is_nan (x - c) = false) by (eapply float_leb_not_nan_l; eauto).
  destruct (Math_max_spec 1.3 (x - c) eq_refl Hn) as ([->| ->] & H3 & _).
  - split; reflexivity.
  - split; assumption.
Qed.

Lemma Math_ceil_spec y :
  SpecFloat.valid_binary prec emax (SFceil (Prim2SF y)) = true ->
  Prim2SF (Math_ceil y) = SFceil (Prim2SF y).
Proof. intros H. unfold Math_ceil. now apply Prim2SF_SF2Prim. Qed.

(** The result of a product of a positive number by a factor of at least 1,
    rounded up to an integer. *)
Lemma ceil_of_rounded x r mi ei :
  rounds_to x r ->
  SpecFloat.bounded prec emax mi ei = true ->
  (F2R (Z.pos mi) ei <= x)%R ->
  SpecFloat.valid_binary prec emax (SFceil r) = true
  /\ SFleb r (SFceil r) = true
  /\ SFleb (Prim2SF 1) (SFceil r) = true.
Proof.
  intros (Hv & Hs & Hl & _) Bi Hle.
  destruct Hs as [->|[->|(m & e & ->)]].
  - specialize (Hl mi ei Bi Hle). discriminate.
  - repeat split.
  - now apply SFceil_pos.
Qed.

Lemma ceil_mul_ge_1 i f mf ef :
  Prim2SF f = S754_finite false mf ef ->
  (1 <= F2R (Z.pos mf) ef)%R ->
  (0 <=? i)%float = true -> (i =? 0)%float = false ->
  (1 <=? Math_ceil (i * f))%float = true.
Proof.
  intros Hf Hf1 Hi0 Hi.
  pose proof (Prim2SF_valid f) as Vf. rewrite Hf in Vf. simpl in Vf.
  pose proof (Prim2SF_valid i) as Vi.
  rewrite FloatAxioms.leb_spec in Hi0. rewrite FloatAxioms.eqb_spec in Hi.
  change (Prim2SF 0) with (S754_zero false) in *.
  rewrite FloatAxioms.leb_spec.
  destruct (Prim2SF i) as [[|]|[|]| |[|] mi ei] eqn:Ei;
    try (exfalso; cbn in Hi0, Hi; discriminate).
  - assert (Hp : Prim2SF (i * f) = S754_infinity false)
      by (rewrite FloatAxioms.mul_spec, Ei, Hf; reflexivity).
    rewrite Math_ceil_spec; rewrite Hp; reflexivity.
  - simpl in Vi.
    assert (Hp : Prim2SF (i * f) = SFmul prec emax (S754_finite false mi ei) (S754_finite false mf ef))
      by (rewrite FloatAxioms.mul_spec, Ei, Hf; reflexivity).
    pose proof (SFmul_rounds mi ei mf ef Vi Vf) as Hr.
    destruct (ceil_of_rounded _ _ mi ei Hr Vi) as (Hv & _ & H1).
    { pose proof (F2R_pos (Z.pos mi) ei ltac:(lia)). nra. }
    rewrite Math_ceil_spec; rewrite Hp; assumption.
Qed.

(** A finite number of at least 1 multiplied by a factor of at least 1.19
    and rounded up to an integer is strictly larger. *)
Lemma ceil_mul_gt i f mf ef :
  Prim2SF f = S754_finite false mf ef ->
  (119 / 100 <= F2R (Z.pos mf) ef)%R ->
  (1 <=? i)%float = true -> (i <? infinity)%float = true ->
  (i <? Math_ceil (i * f))%float = true.
Proof.
  intros Hf Hf1 Hi1 Hifin.
  pose proof (Prim2SF_valid f) as Vf. rewrite Hf in Vf. simpl in Vf.
  pose proof (Prim2SF_valid i) as Vi.
  rewrite FloatAxioms.leb_spec, Prim2SF_1 in Hi1. rewrite FloatAxioms.ltb_spec in Hifin.
  change (Prim2SF infinity) with (S754_infinity false) in *.
  rewrite FloatAxioms.ltb_spec.
  destruct (Prim2SF i) as [[|]|[|]| |[|] mi ei] eqn:Ei;
    try (exfalso; cbn in Hi1, Hifin; discriminate).
  simpl in Vi.
  apply SFleb_finite in Hi1; [|reflexivity|assumption]. rewrite F2R_1 in Hi1.
  assert (Hp : Prim2SF (i * f) = SFmul prec emax (S754_finite false mi ei) (S754_finite false mf ef))
    by (rewrite FloatAxioms.mul_spec, Ei, Hf; reflexivity).
  pose proof (SFmul_rounds mi ei mf ef Vi Vf) as Hr.
  set (x := (F2R (Z.pos mi) ei * F2R (Z.pos mf) ef)%R) in *.
  set (r := SFmul prec emax (S754_finite false mi ei) (S754_finite false mf ef)) in *.
  destruct (ceil_of_rounded _ _ mi ei Hr Vi) as (Hv & Hc & _).
  { unfold x. nra. }
  rewrite Math_ceil_spec; rewrite Hp; [|assumption].
  apply SFltb_leb_trans with r; [|assumption].
  (* the product is above the successor of [i] *)
  pose proof (bounded_inv _ _ Vi) as (Hei & Hmi & Hci).
  assert (Hnorm : 2 ^ 52 <= Z.pos mi).
  { destruct Hci as [->|]; [exfalso|assumption].
    assert (F2R (Z.pos mi) (-1074) < F2R (2 ^ 52) (-52))%R
      by (apply F2R_lt_exp; lia).
    change (2 ^ 52) with 4503599627370496 in H. rewrite F2R_1 in H. lra. }
  assert (Hstep : (F2R (Z.pos mi + 1) ei <= x)%R).
  { unfold x. rewrite <- F2R_add.
    assert (F2R 1 ei * IZR (2 ^ 52) <= F2R (Z.pos mi) ei)%R.
    { unfold F2R. pose proof (bpow_pos ei). apply IZR_le in Hnorm. nra. }
    change (2 ^ 52) with 4503599627370496 in H.
    pose proof (F2R_pos 1 ei ltac:(lia)). nra. }
  destruct Hr as (_ & _ & Hl & _ & Ho).
  destruct (Z.eq_dec (Z.pos mi + 1) (2 ^ 53)) as [Hmax|Hnmax].
  - destruct (Z.eq_dec ei 971) as [->|Hne].
    + rewrite Ho; [reflexivity|].
      apply Rle_trans with (2 := Hstep). rewrite Hmax.
      unfold F2R. rewrite <- (bpow_Z 53) by lia. rewrite <- bpow_add. apply Rle_refl.
    + apply SFltb_leb_trans with (S754_finite false (Z.to_pos (2 ^ 52)) (ei + 1)).
      * apply SFltb_finite; [assumption|apply bounded_intro; [lia|reflexivity|right; reflexivity]|].
        apply F2R_lt_exp; [lia|reflexivity|lia].
      * apply Hl; [apply bounded_intro; [lia|reflexivity|right; reflexivity]|].
        apply Rle_trans with (2 := Hstep). rewrite Hmax.
        rewrite (F2R_shift _ (ei + 1) ei) by lia.
        replace (ei + 1 - ei) with 1 by lia. apply Rle_refl.
  - apply SFltb_leb_trans with (S754_finite false (Pos.succ mi) ei).
    + apply SFltb_finite; [assumption|apply bounded_intro; lia|].
      apply F2R_lt. lia.
    + apply Hl; [apply bounded_intro; lia|].
      rewrite Pos2Z.inj_succ. unfold Z.succ. exact Hstep.
Qed.

End Rounding.

(** ** Whole numbers in binary64

    Below [2^53] the products and sums of whole numbers are exact; from there
    on they stay at least [2^53]. *)

Module Whole.
Import Js Binary64 Rounding.

Lemma rounds_exact x r mf ef :
  rounds_to x r -> SpecFloat.bounded prec emax mf ef = true ->
  F2R (Z.pos mf) ef = x -> r = S754_finite false mf ef.
Proof.
  intros (Hv & Hs & Hl & Hu & _) B E.
  pose proof (Hl mf ef B ltac:(lra)) as H1.
  pose proof (Hu mf ef B ltac:(lra)) as H2.
  destruct Hs as [->|[->|(m & e & ->)]]; try discriminate.
  unfold SFleb, SFcompare in H1, H2.
  destruct (Z.compare_spec ef e) as [->|Hlt|Hgt].
  - rewrite Z.compare_refl in H2.
    change (Pos.compare_cont Eq mf m) with (Pos.compare mf m) in H1.
    change (Pos.compare_cont Eq m mf) with (Pos.compare m mf) in H2.
    destruct (Pos.compare_spec mf m) as [->|Hlt|Hgt]; [reflexivity| |discriminate].
    destruct (Pos.compare_spec m mf); try discriminate; lia.
  - destruct (Z.compare_spec e ef); try discriminate; lia.
  - discriminate.
Qed.

Lemma F2R_0 z : F2R z 0 = IZR z.
Proof. unfold F2R, bpow. simpl. ring. Qed.

Lemma whole_rep z : 0 < z <= 9007199254740992 ->
  exists m e, SpecFloat.bounded prec emax m e = true /\ F2R (Z.pos m) e = IZR z.
Proof.
  intros [H0 H53].
  destruct (Z.eq_dec z 9007199254740992) as [->|Hne].
  { exists 4503599627370496%positive, 1. split; [reflexivity|].
    rewrite (F2R_shift _ 1 0) by lia. rewrite F2R_0. reflexivity. }
  destruct z as [|p|p]; try lia.
  pose proof (digits2_bounds p) as [Hlo Hhi].
  set (d := Z.pos (digits2_pos p)) in *.
  assert (Hd0 : 0 < d) by (unfold d; lia).
  assert (Hd : d <= 53).
  { destruct (Z.le_gt_cases d 53) as [|Hgt]; [assumption|].
    assert (2 ^ 53 <= 2 ^ (d - 1)) by (apply Z.pow_le_mono_r; lia).
    change (2 ^ 53) with 9007199254740992 in H. lia. }
  assert (HP : 0 < 2 ^ (53 - d)) by (apply Z.pow_pos_nonneg; lia).
  assert (Hm : 0 < Z.pos p * 2 ^ (53 - d)) by lia.
  destruct (Z.pos p * 2 ^ (53 - d)) as [|m|m] eqn:Em; try lia.
  assert (E1 : 2 ^ (d - 1) * 2 ^ (53 - d) = 2 ^ 52).
  { rewrite <- Z.pow_add_r by lia. f_equal. lia. }
  assert (E2 : 2 ^ d * 2 ^ (53 - d) = 2 ^ 53).
  { rewrite <- Z.pow_add_r by lia. f_equal. lia. }
  exists m, (d - 53). split.
  - apply bounded_intro; [lia| |right].
    + rewrite <- Em, <- E2. apply Z.mul_lt_mono_pos_r; lia.
    + rewrite <- Em, <- E1. apply Z.mul_le_mono_nonneg_r; lia.
  - rewrite <- F2R_0. rewrite (F2R_shift (Z.pos p) 0 (d - 53)) by lia.
    replace (0 - (d - 53)) with (53 - d) by lia. now rewrite Em.
Qed.

Lemma of_Z_pos z : 0 < z <= 9007199254740992 ->
  exists m e, Prim2SF (of_Z z) = S754_finite false m e
    /\ SpecFloat.bounded prec emax m e = true /\ F2R (Z.pos m) e = IZR z.
Proof.
  intros Hz. destruct (whole_rep z Hz) as (m & e & B & E).
  exists m, e. split; [|now split].
  destruct z as [|p|p]; try lia.
  unfold of_Z.
  change (binary_normalize prec emax (Z.pos p) 0 false)
    with (binary_round prec emax false p 0).
  pose proof (binary_round_rounds p 0) as Hr. rewrite F2R_0 in Hr.
  rewrite (rounds_exact _ _ m e Hr B E).
  apply Prim2SF_SF2Prim. exact B.
Qed.


Lemma of_Z_not_nan z : 0 <= z < 9007199254740992 -> is_nan (of_Z z) = false.
Proof.
  intros Hz. destruct (Z.eq_dec z 0) as [->|Hz0]; [reflexivity|].
  destruct (of_Z_pos z ltac:(lia)) as (m & e & E & _).
  apply is_nan_false. rewrite E. unfold SFeqb, SFcompare.
  rewrite Z.compare_refl.
  change (Pos.compare_cont Eq m m) with (Pos.compare m m).
  now rewrite Pos.compare_refl.
Qed.













Lemma plus_one_whole n :
  0 <= n < 9007199254740992 -> (of_Z n + 1)%float = of_Z (n + 1).
Proof.
  intros Hn. apply Prim2SF_inj. rewrite FloatAxioms.add_spec.
  destruct (Z.eq_dec n 0) as [->|Hn0]; [reflexivity|].
  destruct (of_Z_pos n ltac:(lia)) as (mn & en & En & Bn & Vn).
  destruct (of_Z_pos (n + 1) ltac:(lia)) as (m & e & E & B & V).
  rewrite En, E, Prim2SF_1.
  pose proof (SFadd_rounds mn en 4503599627370496 (-52)) as Hr.
  rewrite Vn, F2R_1 in Hr.
  apply (rounds_exact _ _ m e Hr B). rewrite V, plus_IZR. reflexivity.
Qed.




End Whole.

(** ** The codec: [ensureProgressStructure] and [getProgressEntry] *)

Module Codec.
Import Js Store Flashcards.

Lemma ensure_idem u :
  ensureProgressStructure (ensureProgressStructure u) = ensureProgressStructure u.
Proof. destruct u as [[[w h m n]|]]; reflexivity. Qed.

Lemma mapping_ensure u : mapping (ensureProgressStructure u) = mapping u.
Proof. destruct u as [[[[w|] h m n]|]]; reflexivity. Qed.

Lemma log_ensure u : log (ensureProgressStructure u) = log u.
Proof. destruct u as [[[w [h|] m n]|]]; reflexivity. Qed.

Lemma getProgressEntry_user u wordId :
  snd (getProgressEntry u wordId) = ensureProgressStructure u.
Proof.
  unfold getProgressEntry.
  destruct (progress (ensureProgressStructure u) ≫= words) as [w|]; [|reflexivity].
  destruct (by_id w !! wordId); reflexivity.
Qed.

Lemma getProgressEntry_entry u wordId :
  fst (getProgressEntry u wordId) =
    match mapping u !! wordId with
    | Some e => e
    | None =>
        match find_history (log u) wordId with
        | Some (_, he) => of_history he
        | None => default_entry
        end
    end.
Proof.
  rewrite <- (mapping_ensure u), <- (log_ensure u).
  unfold getProgressEntry, mapping, log.
  destruct u as [[[w h m n]|]]; simpl.
  - destruct (by_id (default empty_words w) !! wordId); simpl; [reflexivity|].
    destruct (find_history (default [] h) wordId) as [[? ?]|]; reflexivity.
  - reflexivity.
Qed.

Lemma getProgressEntry_ensure u wordId :
  fst (getProgressEntry (ensureProgressStructure u) wordId)
  = fst (getProgressEntry u wordId).
Proof. now rewrite !getProgressEntry_entry, mapping_ensure, log_ensure. Qed.

Lemma merge_default : merge default_entry = default_entry.
Proof. reflexivity. Qed.

(** The state-threading listing is a plain map over the catalog. *)
Lemma wordsWithProgress_map u ws :
  fst (wordsWithProgress u ws)
  = List.map (fun w => (w, normalize u (_id w))) ws.
Proof.
  revert u. induction ws as [|w ws IH]; intros u; [reflexivity|].
  simpl. destruct (getProgressEntry u (_id w)) as [p u1] eqn:E.
  specialize (IH u1).
  destruct (wordsWithProgress u1 ws) as [rest u2]. simpl in *.
  rewrite IH. unfold normalize. rewrite E. simpl. f_equal.
  assert (u1 = ensureProgressStructure u) as ->
    by (now rewrite <- (getProgressEntry_user u (_id w)), E).
  apply map_ext. intros a. now rewrite getProgressEntry_ensure.
Qed.

Lemma normalize_ensure u wordId :
  normalize (ensureProgressStructure u) wordId = normalize u wordId.
Proof. unfold normalize. now rewrite getProgressEntry_ensure. Qed.

End Codec.

(** ** Resolution order, purity *)

Module CodecProperties.
Import Js Store Flashcards Codec.

(** C3, amended. For every user record and word id, [getProgressEntry]
    returns an entry (it is a total function), resolved in this order: the
    keyed mapping's entry for the word, returned as it is stored (missing
    fields stay missing); else the first history tuple of the word, with ease
    2.5 and interval 0 where they are not numbers, review count 0 where it is
    falsy, and the two dates as stored; else the all-defaults entry.  A user
    without progress record, or with a record that has neither mapping nor
    log (or none with the word), gets the all-defaults entry.  The defaults
    of a mapping entry are filled in by the readers (lines 150-154, 282-286):
    the entry they build has ease 2.5 and interval 0 where the returned ones
    are not numbers, review count 0 and null dates where the returned ones
    are falsy. *)
Theorem getProgressEntry_resolution (u : user) (wordId : string) :
  let r := fst (getProgressEntry u wordId) in
  r = match mapping u !! wordId with
      | Some e => e
      | None =>
          match find_history (log u) wordId with
          | Some (_, he) =>
              Entry (VNum (number_or (ease he) 2.5))
                    (VNum (number_or (interval he) 0))
                    (or_else (reviewCount he) (VNum 0))
                    (lastReviewed he) (nextReview he)
          | None => Entry (VNum 2.5) (VNum 0) (VNum 0) VNull VNull
          end
      end
  ∧ fst (getProgressEntry (User None) wordId)
    = Entry (VNum 2.5) (VNum 0) (VNum 0) VNull VNull
  ∧ (∀ m n, fst (getProgressEntry (User (Some (Progress None None m n))) wordId)
            = Entry (VNum 2.5) (VNum 0) (VNum 0) VNull VNull)
  ∧ (∀ w m n, by_id w !! wordId = None →
       fst (getProgressEntry (User (Some (Progress (Some w) None m n))) wordId)
       = Entry (VNum 2.5) (VNum 0) (VNum 0) VNull VNull)
  ∧ (∀ h m n, find_history h wordId = None →
       fst (getProgressEntry (User (Some (Progress None (Some h) m n))) wordId)
       = Entry (VNum 2.5) (VNum 0) (VNum 0) VNull VNull)
  ∧ normalize u wordId
    = Entry (VNum (number_or (ease r) 2.5))
            (VNum (number_or (interval r) 0))
            (or_else (reviewCount r) (VNum 0))
            (or_else (lastReviewed r) VNull)
            (or_else (nextReview r) VNull).
Proof.
  intros r. split.
  { subst r. rewrite getProgressEntry_entry.
    destruct (mapping u !! wordId); [reflexivity|].
    destruct (find_history (log u) wordId) as [[? ?]|]; reflexivity. }
  split; [reflexivity|].
  split; [reflexivity|].
  split.
  { intros w m n Hw. rewrite getProgressEntry_entry.
    unfold mapping, log. simpl. now rewrite Hw. }
  split.
  { intros h m n Hh. rewrite getProgressEntry_entry.
    unfold mapping, log. simpl. rewrite lookup_empty. now rewrite Hh. }
  reflexivity.
Qed.

(** A record whose log has the word, and records without mapping or log. *)
Lemma getProgressEntry_resolution_witness :
  let id := Examples.word_id in
  let he := Entry (VNum 2) VUndefined VUndefined VUndefined VUndefined in
  by_id empty_words !! id = None
  ∧ find_history [] id = None
  ∧ fst (getProgressEntry
           (User (Some (Progress (Some empty_words) (Some [(id, he)]) None None))) id)
    = Entry (VNum 2) (VNum 0) (VNum 0) VUndefined VUndefined
  ∧ fst (getProgressEntry
           (User (Some (Progress (Some empty_words) None None None))) id)
    = Entry (VNum 2.5) (VNum 0) (VNum 0) VNull VNull
  ∧ fst (getProgressEntry (User (Some (Progress None (Some []) None None))) id)
    = Entry (VNum 2.5) (VNum 0) (VNum 0) VNull VNull.
Proof.
  intros id he.
  assert (H1 : by_id empty_words !! id = None) by apply lookup_empty.
  assert (H2 : find_history ([] : list (string * entry)) id = None) by reflexivity.
  destruct (getProgressEntry_resolution
              (User (Some (Progress (Some empty_words) (Some [(id, he)]) None None))) id)
    as (A & _ & _ & B & C & _).
  split; [exact H1|]. split; [exact H2|].
  split; [exact A|].
  split; [exact (B empty_words None None H1)|exact (C [] None None H2)].
Defined.

(** C3 as stated fails: a mapping entry that has only an ease is returned as
    it is stored, without interval, review count and dates, where the claim
    has it default-filled (interval 0, review count 0). *)
Lemma getProgressEntry_returns_stored_entry :
  let id := Examples.word_id in
  let stored := Entry (VNum 2) VUndefined VUndefined VUndefined VUndefined in
  let u := User (Some (Progress (Some (Words {[ id := stored ]} None))
                         (Some []) (Some []) (Some []))) in
  fst (getProgressEntry u id) = stored
  ∧ interval (fst (getProgressEntry u id)) = VUndefined
  ∧ reviewCount (fst (getProgressEntry u id)) = VUndefined
  ∧ fst (getProgressEntry u id) ≠ Entry (VNum 2) (VNum 0) (VNum 0) VNull VNull.
Proof.
  intros id stored u.
  assert (H : fst (getProgressEntry u id) = stored).
  { rewrite getProgressEntry_entry. unfold mapping, u. simpl.
    now rewrite lookup_singleton_eq. }
  rewrite H. repeat split. discriminate.
Qed.

(** C9. [getProgressEntry] is not a pure read: called on a user that has no
    progress structure it leaves the user object with an empty one (the
    assignment of [ensureProgressStructure]); in general it leaves the user as
    [ensureProgressStructure] does. *)
Theorem getProgressEntry_fills_structure :
  (∀ u wordId, snd (getProgressEntry u wordId) = ensureProgressStructure u)
  ∧ ∀ wordId,
      snd (getProgressEntry (User None) wordId)
      = User (Some (Progress (Some empty_words) (Some []) (Some []) (Some [])))
      ∧ snd (getProgressEntry (User None) wordId) ≠ User None.
Proof.
  split; [apply getProgressEntry_user|].
  intros wordId. split; [reflexivity|]. discriminate.
Qed.

End CodecProperties.

(** ** The due list *)

Module DueProperties.
Import Js Store Flashcards Codec.

Section WithDates.
Variable Date_parse : string -> float.

Lemma is_due_normalized (raw : entry) (now : float) :
  is_due Date_parse raw now = Spec.due Date_parse (merge raw) now.
Proof.
  unfold is_due, Spec.due, merge, or_else. simpl.
  destruct (nextReview raw) as [| |b|x|s|t]; simpl; try reflexivity.
  - destruct b; reflexivity.
  - destruct (is_zero x || is_nan x); reflexivity.
  - destruct (String.eqb s ""); reflexivity.
Qed.

Lemma dueFilter_user u ws now :
  snd (dueFilter Date_parse u ws now)
  = match ws with [] => u | _ => ensureProgressStructure u end.
Proof.
  revert u. induction ws as [|w ws IH]; intros u; [reflexivity|].
  simpl. destruct (getProgressEntry u (_id w)) as [p u1] eqn:E.
  specialize (IH u1).
  destruct (dueFilter Date_parse u1 ws now) as [rest u2]. simpl in *.
  assert (u1 = ensureProgressStructure u) as ->
    by (now rewrite <- (getProgressEntry_user u (_id w)), E).
  rewrite IH. destruct ws; [reflexivity|apply ensure_idem].
Qed.

Lemma dueFilter_filter u ws now :
  fst (dueFilter Date_parse u ws now)
  = List.filter (fun w => Spec.due Date_parse (normalize u (_id w)) now) ws.
Proof.
  revert u. induction ws as [|w ws IH]; intros u; [reflexivity|].
  simpl. destruct (getProgressEntry u (_id w)) as [p u1] eqn:E.
  specialize (IH u1).
  destruct (dueFilter Date_parse u1 ws now) as [rest u2]. simpl in *.
  assert (u1 = ensureProgressStructure u) as ->
    by (now rewrite <- (getProgressEntry_user u (_id w)), E).
  assert (rest = List.filter
            (fun w => Spec.due Date_parse (normalize u (_id w)) now) ws) as ->.
  { rewrite IH. apply filter_ext. intros a. now rewrite normalize_ensure. }
  rewrite is_due_normalized.
  replace p with (fst (getProgressEntry u (_id w))) by now rewrite E.
  reflexivity.
Qed.

Lemma get_due_unfold d userId now :
  get_due Date_parse d userId now =
    if negb (isValidObjectId (VStr userId)) then Rejected 400 "Invalid user ID"
    else
      match users d !! userId with
      | None => Rejected 404 "User not found"
      | Some u =>
          Json (List.map (fun w => (w, normalize u (_id w)))
                  (List.filter
                     (fun w => Spec.due Date_parse (normalize u (_id w)) now)
                     (catalog d)))
      end.
Proof.
  unfold get_due.
  destruct (negb (isValidObjectId (VStr userId))); [reflexivity|].
  destruct (users d !! userId) as [u|]; [|reflexivity].
  pose proof (dueFilter_filter u (catalog d) now) as Hf.
  pose proof (dueFilter_user u (catalog d) now) as Hu.
  destruct (dueFilter Date_parse u (catalog d) now) as [due u1].
  simpl in Hf, Hu. subst due. f_equal.
  rewrite wordsWithProgress_map. apply map_ext. intros w.
  f_equal. subst u1. destruct (catalog d); [reflexivity|apply normalize_ensure].
Qed.

End WithDates.
End DueProperties.

Module DueList.
Import Js Store Flashcards Codec DueProperties.

(** C6. The due list is the catalog, in its own order, filtered by "the
    normalized entry has no next review, or one that is not after now", each
    word merged with its normalized entry; a word for which the user has
    neither a mapping entry nor a history tuple is in the list at any time. *)
Theorem get_due_catalog_subsequence
    (Date_parse : string -> float) (d : db) (userId : string) (now : float) :
  get_due Date_parse d userId now =
    (if negb (isValidObjectId (VStr userId)) then Rejected 400 "Invalid user ID"
     else
       match users d !! userId with
       | None => Rejected 404 "User not found"
       | Some u =>
           Json (List.map (fun w => (w, normalize u (_id w)))
                   (List.filter
                      (fun w => Spec.due Date_parse (normalize u (_id w)) now)
                      (catalog d)))
       end)
  ∧ ∀ u w,
      isValidObjectId (VStr userId) = true ->
      users d !! userId = Some u ->
      In w (catalog d) ->
      mapping u !! _id w = None ->
      find_history (log u) (_id w) = None ->
      ∃ l, get_due Date_parse d userId now = Json l ∧ In (w, default_entry) l.
Proof.
  split; [apply get_due_unfold|].
  intros u w Hv Hu Hw Hm Hh. rewrite get_due_unfold, Hv, Hu. simpl.
  eexists. split; [reflexivity|].
  assert (Hn : normalize u (_id w) = default_entry).
  { unfold normalize. rewrite getProgressEntry_entry, Hm, Hh. reflexivity. }
  apply in_map_iff. exists w. rewrite Hn. split; [reflexivity|].
  apply filter_In. split; [assumption|]. now rewrite Hn.
Qed.

Lemma get_due_catalog_subsequence_witness :
  let d := Db {[ "aaaaaaaaaaaaaaaaaaaaaaaa" := User None ]}
              [Word "0123456789abcdef01234567" "ola" "hello"] in
  ∃ l, get_due (fun _ => nan) d "aaaaaaaaaaaaaaaaaaaaaaaa" 1700000000000 = Json l
       ∧ In (Word "0123456789abcdef01234567" "ola" "hello", default_entry) l.
Proof.
  intros d.
  apply (proj2 (get_due_catalog_subsequence (fun _ => nan) d
                  "aaaaaaaaaaaaaaaaaaaaaaaa" 1700000000000) (User None)).
  - reflexivity.
  - reflexivity.
  - now left.
  - reflexivity.
  - reflexivity.
Defined.

End DueList.

(** ** The scheduler *)

Module Scheduler.
Import Js Store Flashcards Binary64 Rounding Whole.

Section WithDates.
Variable Date_toString : float -> string.

Lemma review_step_cases (prior : entry) (o : Spec.outcome) (now : float) :
  let e := review_step Date_toString prior (Spec.difficulty o) now in
  u_ease e = Spec.new_ease o (number_or (ease prior) 2.5)
  ∧ u_interval e =
      Spec.new_interval o (number_or (interval prior) 0)
        (Spec.new_ease o (number_or (ease prior) 2.5))
  ∧ u_reviewCount e = plus_one Date_toString (or_else (reviewCount prior) (VNum 0)).
Proof. destruct o; repeat split. Qed.

Lemma new_ease_range (o : Spec.outcome) (x : float) :
  (1.3 <=? x)%float = true -> (x <=? 3)%float = true ->
  (1.3 <=? Spec.new_ease o x)%float = true
  ∧ (Spec.new_ease o x <=? 3)%float = true.
Proof.
  intros Hlo Hhi. destruct o; simpl.
  - now apply ease_add_range.
  - apply (ease_sub_range x 0.05 _ _ Prim2SF_0_05 F2R_0_05 Hlo Hhi).
  - apply (ease_sub_range x 0.2 _ _ Prim2SF_0_2 F2R_0_2 Hlo Hhi).
Qed.

Lemma plus_one_zero (n : float) :
  is_zero n = true -> (n + 1)%float = (0 + 1)%float.
Proof.
  unfold is_zero. rewrite FloatAxioms.eqb_spec. intros H.
  apply Prim2SF_inj. rewrite !FloatAxioms.add_spec.
  change (Prim2SF zero) with (S754_zero false) in H.
  destruct (Prim2SF n) as [[|]|[|]| |[|] ? ?]; try discriminate H; reflexivity.
Qed.



(** C7, amended. For every prior entry and outcome, one review step produces
    an ease between 1.3 and 3.0 if the prior ease (2.5 when it is not a
    number) is between 1.3 and 3.0, and then an interval of at least 1 if the
    prior interval (0 when it is not a number) is not negative.  The review
    count is the prior count plus 1 when the prior count is a whole number
    from 0 to 2^53 - 1; it is the double nearest to the prior count plus 1
    when the prior count is any number other than NaN, and 1 when the prior
    count is absent. *)
Theorem review_step_keeps_bounds (prior : entry) (o : Spec.outcome) (now : float) :
  let e := review_step Date_toString prior (Spec.difficulty o) now in
  ((1.3 <=? number_or (ease prior) 2.5)%float = true ->
   (number_or (ease prior) 2.5 <=? 3)%float = true ->
   (1.3 <=? u_ease e)%float = true
   ∧ (u_ease e <=? 3)%float = true
   ∧ ((0 <=? number_or (interval prior) 0)%float = true ->
      (1 <=? u_interval e)%float = true))
  ∧ (∀ n : Z, 0 <= n < 9007199254740992 ->
       reviewCount prior = VNum (of_Z n) ->
       u_reviewCount e = VNum (of_Z (n + 1)))
  ∧ (∀ x : float, reviewCount prior = VNum x -> is_nan x = false ->
       u_reviewCount e = VNum (x + 1)%float)
  ∧ (reviewCount prior = VUndefined ∨ reviewCount prior = VNull ->
       u_reviewCount e = VNum 1%float).
Proof.
  intros e.
  destruct (review_step_cases prior o now) as (He & Hint & Hrc). fold e in He, Hint, Hrc.
  assert (Hnum : ∀ x, reviewCount prior = VNum x -> is_nan x = false ->
                   u_reviewCount e = VNum (x + 1)%float).
  { intros x Hx Hn. rewrite Hrc, Hx. unfold or_else. simpl. rewrite Hn, orb_false_r.
    destruct (is_zero x) eqn:Ez; simpl; [|reflexivity].
    now rewrite (plus_one_zero x Ez). }
  split; [|split; [|split; [exact Hnum|]]].
  - intros Hlo Hhi.
    destruct (new_ease_range o _ Hlo Hhi) as [Hlo' Hhi'].
    rewrite He. split; [assumption|]. split; [assumption|]. intros Hi.
    rewrite Hint.
    set (i0 := number_or (interval prior) 0) in *.
    set (e1 := Spec.new_ease o (number_or (ease prior) 2.5)) in *.
    destruct (between_pos _ _ _ _ _ _ _ Prim2SF_1_3 Prim2SF_3 Hlo' Hhi')
      as (m1 & x1 & He1 & _ & Hr1).
    pose proof F2R_1_3.
    destruct o; simpl; try reflexivity.
    + destruct (i0 =? 0)%float eqn:E0; [reflexivity|].
      apply (ceil_mul_ge_1 i0 e1 m1 x1 He1); [lra|assumption|assumption].
    + destruct (i0 =? 0)%float eqn:E0; [reflexivity|].
      apply (ceil_mul_ge_1 i0 1.2 _ _ Prim2SF_1_2); [|assumption|assumption].
      pose proof F2R_1_2. lra.
  - intros n Hn Hx.
    rewrite (Hnum _ Hx (of_Z_not_nan n Hn)). now rewrite plus_one_whole.
  - intros [Hx|Hx]; rewrite Hrc, Hx; reflexivity.
Qed.

(** C10, amended. For every prior entry with a finite interval of at least 1
    and an ease between 1.3 and 3.0, a review with outcome easy or medium
    produces an interval strictly greater than the prior one. *)
Theorem review_step_interval_grows (prior : entry) (o : Spec.outcome) (now : float) :
  o ≠ Spec.hard ->
  (1.3 <=? number_or (ease prior) 2.5)%float = true ->
  (number_or (ease prior) 2.5 <=? 3)%float = true ->
  (1 <=? number_or (interval prior) 0)%float = true ->
  (number_or (interval prior) 0 <? infinity)%float = true ->
  (number_or (interval prior) 0
     <? u_interval (review_step Date_toString prior (Spec.difficulty o) now))%float
  = true.
Proof.
  intros Ho Hlo Hhi Hi Hfin.
  destruct (review_step_cases prior o now) as (_ & -> & _).
  destruct (new_ease_range o _ Hlo Hhi) as [Hlo' Hhi'].
  set (i0 := number_or (interval prior) 0) in *.
  set (e1 := Spec.new_ease o (number_or (ease prior) 2.5)) in *.
  destruct (between_pos _ _ _ _ _ _ _ Prim2SF_1_3 Prim2SF_3 Hlo' Hhi')
    as (m1 & x1 & He1 & _ & Hr1).
  pose proof F2R_1_3.
  assert (E0 : (i0 =? 0)%float = false).
  { rewrite FloatAxioms.eqb_spec. rewrite FloatAxioms.leb_spec in Hi.
    change (Prim2SF 0) with (S754_zero false). rewrite Prim2SF_1 in Hi.
    destruct (Prim2SF i0) as [[|]|[|]| |[|] ? ?]; try discriminate Hi; reflexivity. }
  destruct o; simpl; [| |congruence]; rewrite E0.
  - apply (ceil_mul_gt i0 e1 m1 x1 He1); [lra|assumption|assumption].
  - apply (ceil_mul_gt i0 1.2 _ _ Prim2SF_1_2); [|assumption|assumption].
    apply F2R_1_2.
Qed.

End WithDates.



(** A first review of a new word, and the 8th review of a word with ease 2.5
    and interval 10. *)
Lemma review_step_keeps_bounds_witness :
  let prior := Entry (VNum 2.5) (VNum 10) (VNum 7) VNull VNull in
  let e := review_step (fun _ => "") prior (Spec.difficulty Spec.easy)
             1700000000000 in
  let e0 := review_step (fun _ => "") default_entry (Spec.difficulty Spec.easy)
              1700000000000 in
  (1.3 <=? 2.5)%float = true ∧ (2.5 <=? 3)%float = true ∧ (0 <=? 10)%float = true
  ∧ 0 <= 7 < 9007199254740992 ∧ is_nan 7 = false
  ∧ (1.3 <=? u_ease e)%float = true
  ∧ (u_ease e <=? 3)%float = true
  ∧ (1 <=? u_interval e)%float = true
  ∧ u_reviewCount e = VNum (of_Z 8)
  ∧ u_reviewCount e = VNum (7 + 1)%float
  ∧ u_reviewCount
      (review_step (fun _ => "") (Entry (VNum 2.5) (VNum 0) VUndefined VNull VNull)
         (Spec.difficulty Spec.easy) 1700000000000) = VNum 1%float.
Proof.
  intros prior e e0.
  assert (Hn : 0 <= 7 < 9007199254740992) by lia.
  destruct (review_step_keeps_bounds (fun _ => "") prior Spec.easy 1700000000000)
    as (Hb & Hw & Hx & _).
  destruct (Hb eq_refl eq_refl) as (H1 & H2 & H3).
  destruct (review_step_keeps_bounds (fun _ => "")
              (Entry (VNum 2.5) (VNum 0) VUndefined VNull VNull) Spec.easy
              1700000000000) as (_ & _ & _ & Ha).
  split; [reflexivity|]. split; [reflexivity|]. split; [reflexivity|].
  split; [exact Hn|]. split; [reflexivity|].
  split; [exact H1|]. split; [exact H2|]. split; [exact (H3 eq_refl)|].
  split; [exact (Hw 7 Hn eq_refl)|]. split; [exact (Hx 7%float eq_refl eq_refl)|].
  exact (Ha (or_introl eq_refl)).
Defined.

Lemma review_step_interval_grows_witness :
  let prior := Entry (VNum 2.5) (VNum 10) (VNum 3) VNull VNull in
  Spec.easy ≠ Spec.hard
  ∧ (1.3 <=? 2.5)%float = true ∧ (2.5 <=? 3)%float = true
  ∧ (1 <=? 10)%float = true ∧ (10 <? infinity)%float = true
  ∧ (10 <? u_interval (review_step (fun _ => "") prior
                         (Spec.difficulty Spec.easy) 1700000000000))%float = true.
Proof.
  intros prior.
  assert (Hne : Spec.easy ≠ Spec.hard) by discriminate.
  split; [exact Hne|].
  split; [reflexivity|]. split; [reflexivity|].
  split; [reflexivity|]. split; [reflexivity|].
  exact (review_step_interval_grows (fun _ => "") prior Spec.easy 1700000000000
           Hne eq_refl eq_refl eq_refl eq_refl).
Defined.

(** C7 as stated fails, on each of its three parts.  Ease: a prior ease of
    1.0 gives 1.15 after an easy review, and a prior ease of 3.5 gives 3.3
    after a hard one.  Interval: a prior interval of -5 gives -6 after a
    medium review.  Review count: a stored count of 2^53, a non-negative
    integer, stays 2^53; a stored NaN gives 1, and a stored string "3" gives
    the string "31". *)
Lemma review_step_outside_bounds :
  let step prior o :=
    review_step (fun _ => "") prior (Spec.difficulty o) 1700000000000 in
  let e1 := step (Entry (VNum 1) (VNum 0) (VNum 0) VNull VNull) Spec.easy in
  let e2 := step (Entry (VNum 3.5) (VNum 0) (VNum 0) VNull VNull) Spec.hard in
  let e3 := step (Entry (VNum 2.5) (VNum (-5)) (VNum 0) VNull VNull) Spec.medium in
  let e4 := step (Entry (VNum 2.5) (VNum 0) (VNum 9007199254740992) VNull VNull)
              Spec.easy in
  let e5 := step (Entry (VNum 2.5) (VNum 0) (VNum nan) VNull VNull) Spec.easy in
  let e6 := step (Entry (VNum 2.5) (VNum 0) (VStr "3") VNull VNull) Spec.easy in
  (u_ease e1 = 1.15%float ∧ (1.3 <=? u_ease e1)%float = false)
  ∧ (u_ease e2 = 3.3%float ∧ (u_ease e2 <=? 3)%float = false)
  ∧ (u_interval e3 = (-6)%float ∧ (1 <=? u_interval e3)%float = false)
  ∧ (u_reviewCount e4 = VNum 9007199254740992
     ∧ of_Z 9007199254740992 = 9007199254740992%float
     ∧ of_Z (9007199254740992 + 1) = 9007199254740992%float)
  ∧ u_reviewCount e5 = VNum 1
  ∧ u_reviewCount e6 = VStr "31".
Proof. repeat split. Qed.

(** C10 as stated fails: an infinite interval satisfies [interval >= 1] and
    is not exceeded by the new interval. *)
Lemma review_step_infinite_interval :
  let prior := Entry (VNum 2.5) (VNum infinity) (VNum 700) VNull VNull in
  let e := review_step (fun _ => "") prior (Spec.difficulty Spec.easy)
             1700000000000 in
  (1 <=? infinity)%float = true
  ∧ u_interval e = infinity
  ∧ (infinity <? u_interval e)%float = false.
Proof. repeat split. Qed.

End Scheduler.

(** ** The reconciler: [setProgressEntry] *)

Module Reconciler.
Import Js Store Flashcards Codec Rounding.

Abbreviation is_id w := (fun id : string => String.eqb id w).

Lemma findIndex_None (w : string) (l : list string) :
  findIndex (is_id w) l = None <-> w ∉ l.
Proof.
  induction l as [|x l IH]; simpl.
  - split; [intros _; apply not_elem_of_nil|reflexivity].
  - destruct (String.eqb_spec x w) as [->|Hne].
    + split; [discriminate|]. intros H. exfalso. apply H. left.
    + rewrite not_elem_of_cons. destruct (findIndex (is_id w) l); simpl.
      * split; [discriminate|]. intros [_ H]. now apply IH in H.
      * split; [|reflexivity]. intros _. split; [congruence|]. now apply IH.
Qed.

Lemma findIndex_Some (w : string) (l : list string) (i : nat) :
  findIndex (is_id w) l = Some i -> w ∈ l.
Proof.
  intros H. destruct (decide (w ∈ l)) as [|Hn]; [assumption|].
  apply findIndex_None in Hn. congruence.
Qed.

Lemma splice1_subset (i : nat) (l : list string) (x : string) :
  x ∈ splice1 i l -> x ∈ l.
Proof.
  unfold splice1. revert i. induction l as [|y l IH]; intros [|i]; simpl; auto.
  - intros H. now right.
  - rewrite !elem_of_cons. intros [->|H]; [now left|right; eauto].
Qed.

Lemma splice1_NoDup (i : nat) (l : list string) :
  NoDup l -> NoDup (splice1 i l).
Proof.
  unfold splice1. revert i. induction l as [|y l IH]; intros [|i] H; simpl; auto.
  - now apply NoDup_cons_1_2 in H.
  - apply NoDup_cons in H as [Hy Hl]. apply NoDup_cons. split; [|auto].
    intros Hin. apply Hy. now apply (splice1_subset i).
Qed.

Lemma splice1_other (w x : string) (l : list string) (i : nat) :
  findIndex (is_id w) l = Some i -> x ≠ w -> x ∈ l -> x ∈ splice1 i l.
Proof.
  unfold splice1. revert i. induction l as [|y l IH]; intros i; simpl; [discriminate|].
  destruct (String.eqb_spec y w) as [->|Hne].
  - intros [= <-] Hx. simpl. rewrite elem_of_cons. intros [|]; [congruence|assumption].
  - destruct (findIndex (is_id w) l) as [j|] eqn:E; simpl; [|discriminate].
    intros [= <-] Hx. simpl. rewrite !elem_of_cons. intros [->|H]; [now left|right; eauto].
Qed.

Lemma splice1_removes (w : string) (l : list string) (i : nat) :
  NoDup l -> findIndex (is_id w) l = Some i -> w ∉ splice1 i l.
Proof.
  unfold splice1. revert i. induction l as [|y l IH]; intros i Hnd; simpl; [discriminate|].
  apply NoDup_cons in Hnd as [Hy Hl].
  destruct (String.eqb_spec y w) as [->|Hne].
  - intros [= <-]. exact Hy.
  - destruct (findIndex (is_id w) l) as [j|] eqn:E; simpl; [|discriminate].
    intros [= <-]. simpl. rewrite not_elem_of_cons. split; [congruence|eauto].
Qed.

Lemma push_NoDup (w : string) (l : list string) :
  NoDup l -> w ∉ l -> NoDup (push l w).
Proof.
  intros Hl Hw. unfold push. apply NoDup_app. split; [assumption|].
  split; [|apply NoDup_singleton].
  intros x Hx Hx'. apply list_elem_of_singleton in Hx'. congruence.
Qed.

Lemma elem_of_push (x w : string) (l : list string) :
  x ∈ push l w <-> x ∈ l ∨ x = w.
Proof. unfold push. rewrite elem_of_app, list_elem_of_singleton. tauto. Qed.

Lemma setProgressEntry_arrays (u : user) (w : string) (e : updated) :
  mastered_ids (setProgressEntry u w e)
    = mastered_after w (u_interval e) (mastered_ids u)
  ∧ needsReview_ids (setProgressEntry u w e)
    = needsReview_after w (u_interval e) (needsReview_ids u).
Proof.
  unfold setProgressEntry, mastered_after, needsReview_after.
  assert (Hm : default [] (mastered (default (Progress None None None None)
                 (progress (ensureProgressStructure u)))) = mastered_ids u)
    by (destruct u as [[[? ? [?|] ?]|]]; reflexivity).
  assert (Hn : default [] (needsReview (default (Progress None None None None)
                 (progress (ensureProgressStructure u)))) = needsReview_ids u)
    by (destruct u as [[[? ? ? [?|]]|]]; reflexivity).
  rewrite Hm, Hn.
  destruct (21 <=? u_interval e)%float; [split; reflexivity|].
  destruct (u_interval e <? 7)%float; split; reflexivity.
Qed.

Lemma mastered_after_spec (w : string) (i : float) (m : list string) :
  NoDup m ->
  NoDup (mastered_after w i m)
  ∧ (w ∈ mastered_after w i m <-> (21 <=? i)%float = true)
  ∧ (∀ x, x ≠ w -> (x ∈ mastered_after w i m <-> x ∈ m)).
Proof.
  intros Hm. unfold mastered_after.
  destruct (21 <=? i)%float; destruct (findIndex (is_id w) m) as [k|] eqn:E.
  - split; [assumption|]. split; [|tauto].
    split; [reflexivity|]. intros _. now apply (findIndex_Some w) in E.
  - apply (findIndex_None w) in E. split; [now apply push_NoDup|]. split.
    + rewrite elem_of_push. tauto.
    + intros x Hx. rewrite elem_of_push. tauto.
  - split; [now apply splice1_NoDup|]. split.
    + split; [|discriminate]. intros H. exfalso. now apply (splice1_removes w m k).
    + intros x Hx. split; [apply splice1_subset|now apply (splice1_other w)].
  - apply (findIndex_None w) in E. split; [assumption|]. split; [|tauto].
    split; [tauto|discriminate].
Qed.

Lemma needs_excludes_mastered (i : float) :
  (i <? 7)%float = true -> (21 <=? i)%float = false.
Proof.
  intros H. destruct (21 <=? i)%float eqn:E; [|reflexivity].
  rewrite FloatAxioms.leb_spec in E. rewrite FloatAxioms.ltb_spec in H.
  pose proof (SFleb_ltb_trans _ _ _ E H) as C. discriminate C.
Qed.

Lemma needsReview_after_spec (w : string) (i : float) (n : list string) :
  NoDup n ->
  NoDup (needsReview_after w i n)
  ∧ (w ∈ needsReview_after w i n <-> (i <? 7)%float = true)
  ∧ (∀ x, x ≠ w -> (x ∈ needsReview_after w i n <-> x ∈ n)).
Proof.
  intros Hn. unfold needsReview_after.
  assert (Hrm : ∀ k, findIndex (is_id w) n = Some k ->
            NoDup (splice1 k n) ∧ (w ∉ splice1 k n)
            ∧ ∀ x, x ≠ w -> (x ∈ splice1 k n <-> x ∈ n)).
  { intros k E. split; [now apply splice1_NoDup|].
    split; [now apply (splice1_removes w)|].
    intros x Hx. split; [apply splice1_subset|now apply (splice1_other w)]. }
  pose proof (needs_excludes_mastered i) as Hex.
  destruct (21 <=? i)%float; [|destruct (i <? 7)%float];
    destruct (findIndex (is_id w) n) as [k|] eqn:E.
  - destruct (Hrm k eq_refl) as (H1 & H2 & H3). split; [assumption|].
    split; [|assumption]. split; [tauto|]. intros H. specialize (Hex H). discriminate.
  - apply (findIndex_None w) in E. split; [assumption|]. split; [|tauto].
    split; [tauto|]. intros H. specialize (Hex H). discriminate.
  - split; [assumption|]. split; [|tauto].
    split; [reflexivity|]. intros _. now apply (findIndex_Some w) in E.
  - apply (findIndex_None w) in E. split; [now apply push_NoDup|]. split.
    + rewrite elem_of_push. tauto.
    + intros x Hx. rewrite elem_of_push. tauto.
  - destruct (Hrm k eq_refl) as (H1 & H2 & H3). split; [assumption|].
    split; [|assumption]. split; [tauto|discriminate].
  - apply (findIndex_None w) in E. split; [assumption|]. split; [|tauto].
    split; [tauto|discriminate].
Qed.

(** C2. After [setProgressEntry] writes an entry for a word id into a user
    whose [mastered] and [needsReview] arrays hold no duplicates, the id is in
    [mastered] exactly when the written interval is at least 21, in
    [needsReview] exactly when it is below 7, in neither when it is between
    7 and 21; the arrays still hold no duplicates, and they are disjoint if
    they were. *)
Theorem setProgressEntry_membership (u : user) (wordId : string) (e : updated) :
  NoDup (mastered_ids u) ->
  NoDup (needsReview_ids u) ->
  let u' := setProgressEntry u wordId e in
  (wordId ∈ mastered_ids u' <-> (21 <=? u_interval e)%float = true)
  ∧ (wordId ∈ needsReview_ids u' <-> (u_interval e <? 7)%float = true)
  ∧ ((7 <=? u_interval e)%float = true -> (u_interval e <? 21)%float = true ->
       (wordId ∉ mastered_ids u') ∧ (wordId ∉ needsReview_ids u'))
  ∧ (¬ (wordId ∈ mastered_ids u' ∧ wordId ∈ needsReview_ids u'))
  ∧ NoDup (mastered_ids u') ∧ NoDup (needsReview_ids u')
  ∧ ((∀ x, x ∈ mastered_ids u -> x ∉ needsReview_ids u) ->
       ∀ x, x ∈ mastered_ids u' -> x ∉ needsReview_ids u').
Proof.
  intros Hm Hn u'. subst u'.
  destruct (setProgressEntry_arrays u wordId e) as [-> ->].
  destruct (mastered_after_spec wordId (u_interval e) _ Hm) as (M1 & M2 & M3).
  destruct (needsReview_after_spec wordId (u_interval e) _ Hn) as (N1 & N2 & N3).
  split; [assumption|]. split; [assumption|].
  assert (Hex : ¬ ((21 <=? u_interval e)%float = true ∧ (u_interval e <? 7)%float = true)).
  { intros [H1 H2]. rewrite (needs_excludes_mastered _ H2) in H1. discriminate. }
  split.
  { intros H7 H21. rewrite M2, N2. split.
    - rewrite FloatAxioms.leb_spec. rewrite FloatAxioms.ltb_spec in H21.
      rewrite (SFltb_not_leb _ _ H21). discriminate.
    - rewrite FloatAxioms.ltb_spec. rewrite FloatAxioms.leb_spec in H7.
      rewrite (SFleb_not_ltb _ _ H7). discriminate. }
  split; [rewrite M2, N2; exact Hex|].
  split; [assumption|]. split; [assumption|].
  intros Hdis x Hx Hx'.
  destruct (decide (x = wordId)) as [->|Hne].
  - apply Hex. split; [now apply M2|now apply N2].
  - apply (Hdis x); [now apply M3|now apply N3].
Qed.

Lemma setProgressEntry_membership_witness :
  let u := User None in
  let e := Updated 2.65 27 (VNum 1) 1700000000000 1702332800000 in
  let w := "0123456789abcdef01234567" in
  NoDup (mastered_ids u) ∧ NoDup (needsReview_ids u)
  ∧ (w ∈ mastered_ids (setProgressEntry u w e) <-> (21 <=? 27)%float = true)
  ∧ (w ∈ needsReview_ids (setProgressEntry u w e) <-> (27 <? 7)%float = true).
Proof.
  intros u e w.
  assert (H1 : NoDup (mastered_ids u)) by apply NoDup_nil_2.
  assert (H2 : NoDup (needsReview_ids u)) by apply NoDup_nil_2.
  destruct (setProgressEntry_membership u w e H1 H2) as (A & B & _).
  split; [exact H1|]. split; [exact H2|]. split; [exact A|exact B].
Defined.

End Reconciler.

(** ** The handlers against each other *)

Module Handlers.
Import Js Store Flashcards Codec Examples.

Lemma is_string_other (s t : string) : s ≠ t -> is_string (VStr s) t = false.
Proof. intros H. simpl. now apply String.eqb_neq. Qed.

(** C4. An outcome outside easy, medium and hard is not rejected: any such
    non-empty string is processed as "hard" is, and the user record is
    rewritten (here for "banana": status 200 with ease 2.3 and interval 1).
    Only an absent or empty outcome is rejected, with status 400 and the
    database unchanged. *)
Theorem post_review_unknown_outcome :
  (∀ Date_toString d userId wordId s now,
     s ≠ "easy" -> s ≠ "medium" ->
     s ≠ "" ->
     post_review Date_toString d userId wordId (VStr s) now
     = post_review Date_toString d userId wordId (VStr "hard") now)
  ∧ fst (post_review no_date_string db0 user_id (VStr word_id) (VStr "banana")
           1700000000000)
    = Json (VStr word_id, Updated 2.3 1 (VNum 1) 1700000000000 1700086400000)
  ∧ users (snd (post_review no_date_string db0 user_id (VStr word_id)
                  (VStr "banana") 1700000000000)) !! user_id
    ≠ users db0 !! user_id
  ∧ (∀ Date_toString d userId wordId now,
       post_review Date_toString d userId wordId (VStr "") now
       = (Rejected 400 "wordId and difficulty are required", d)).
Proof.
  split.
  { intros Date_toString d userId wordId s now He Hm Hs.
    unfold post_review, review_step.
    rewrite (is_string_other s "easy" He), (is_string_other s "medium" Hm).
    assert (Ht : truthy (VStr s) = true).
    { simpl. apply negb_true_iff. now apply String.eqb_neq. }
    rewrite Ht. reflexivity. }
  split; [reflexivity|].
  split; [vm_compute; discriminate|].
  intros Date_toString d userId wordId now. unfold post_review.
  simpl truthy. now rewrite orb_true_r.
Qed.

(** C5. The listing of [routes/words.js] reads [progress.words.map], which
    [setProgressEntry] never writes: after a review the listing of
    [routes/flashcards.js] shows the new entry and that of [routes/words.js]
    still shows the defaults. *)
Theorem listings_disagree_after_review :
  (∀ u wordId e id,
     Words.map_get (Some (setProgressEntry u wordId e)) id
     = Words.map_get (Some u) id)
  ∧ get_flashcards db1 user_id
    = Json [(ola, Entry (VNum 2.65) (VNum 1) (VNum 1)
                    (VDate 1700000000000) (VDate 1700086400000))]
  ∧ Words.wordsWithProgress db1 user_id [ola] = [(ola, default_entry)].
Proof.
  split; [|split; reflexivity].
  intros u wordId e id. unfold Words.map_get, setProgressEntry.
  destruct u as [[[[w|] h m n]|]]; simpl;
    destruct (21 <=? u_interval e)%float; try reflexivity;
    destruct (u_interval e <? 7)%float; reflexivity.
Qed.

(** C8. Removing a word unsets its key in [progress.words.map] only: the
    keyed mapping, the history log and both membership arrays of every user
    stay as they were, so a reviewed word is still referenced after its
    removal. *)
Theorem delete_word_leaves_progress :
  (∀ id u,
     mapping (Words.unset_map_key id u) = mapping u
     ∧ log (Words.unset_map_key id u) = log u
     ∧ mastered_ids (Words.unset_map_key id u) = mastered_ids u
     ∧ needsReview_ids (Words.unset_map_key id u) = needsReview_ids u)
  ∧ fst (Words.delete_word db1 word_id) = Json "Word removed"
  ∧ catalog (snd (Words.delete_word db1 word_id)) = []
  ∧ ∃ u, users (snd (Words.delete_word db1 word_id)) !! user_id = Some u
      ∧ is_Some (mapping u !! word_id)
      ∧ is_Some (find_history (log u) word_id)
      ∧ word_id ∈ needsReview_ids u.
Proof.
  split.
  { intros id [[[[[bi [mp|]]|] h m n]|]]; repeat split. }
  split; [reflexivity|]. split; [reflexivity|].
  eexists. split; [vm_compute; reflexivity|].
  split; [vm_compute; eauto|]. split; [vm_compute; eauto|].
  vm_compute. apply list_elem_of_here.
Qed.

End Handlers.

(** ** More on the codec and the reconciler *)

Module Records.
Import Js Store Flashcards Codec.

(** [ensureProgressStructure] only adds what is missing: it is idempotent,
    its result has all four parts of the progress structure, and the mapping,
    the nested map, the log and the two arrays keep their content. *)
Theorem ensureProgressStructure_only_completes (u : user) :
  ensureProgressStructure (ensureProgressStructure u) = ensureProgressStructure u
  ∧ (∃ w h m n,
       ensureProgressStructure u
       = User (Some (Progress (Some w) (Some h) (Some m) (Some n))))
  ∧ mapping (ensureProgressStructure u) = mapping u
  ∧ ((progress (ensureProgressStructure u) ≫= words) ≫= words_map)
    = ((progress u ≫= words) ≫= words_map)
  ∧ log (ensureProgressStructure u) = log u
  ∧ mastered_ids (ensureProgressStructure u) = mastered_ids u
  ∧ needsReview_ids (ensureProgressStructure u) = needsReview_ids u
  ∧ (∀ w h m n,
       u = User (Some (Progress (Some w) (Some h) (Some m) (Some n))) ->
       ensureProgressStructure u = u).
Proof.
  split; [apply ensure_idem|].
  split; [unfold ensureProgressStructure; eauto|].
  split; [apply mapping_ensure|].
  split; [destruct u as [[[[w|] h m n]|]]; reflexivity|].
  split; [apply log_ensure|].
  split; [destruct u as [[[w h [m|] n]|]]; reflexivity|].
  split; [destruct u as [[[w h m [n|]]|]]; reflexivity|].
  intros w h m n ->. reflexivity.
Qed.

Lemma upsert_nil w v : upsert w v [] = [(w, v)].
Proof. reflexivity. Qed.

Lemma upsert_cons w v x l :
  upsert w v (x :: l) = if String.eqb (fst x) w then (w, v) :: l else x :: upsert w v l.
Proof.
  unfold upsert. simpl. destruct (String.eqb (fst x) w); [reflexivity|].
  destruct (findIndex _ l); reflexivity.
Qed.

Lemma mapping_set u w e :
  mapping (setProgressEntry u w e) = <[w := stored e]> (mapping u).
Proof.
  rewrite <- (mapping_ensure u). unfold setProgressEntry, mapping.
  destruct (ensureProgressStructure u) as [[[[[bi mp]|] h m n]|]]; simpl;
    destruct (21 <=? u_interval e)%float; try reflexivity;
    destruct (u_interval e <? 7)%float; reflexivity.
Qed.

Lemma log_set u w e :
  log (setProgressEntry u w e) = upsert w (stored e) (log u).
Proof.
  rewrite <- (log_ensure u). unfold setProgressEntry, log, upsert.
  destruct (ensureProgressStructure u) as [[[wo [h|] m n]|]]; simpl;
    destruct (21 <=? u_interval e)%float; try reflexivity;
    destruct (u_interval e <? 7)%float; reflexivity.
Qed.

Lemma find_upsert_same w v l : find_history (upsert w v l) w = Some (w, v).
Proof.
  unfold find_history. induction l as [|x l IH].
  - simpl. now rewrite String.eqb_refl.
  - rewrite upsert_cons. destruct (String.eqb (fst x) w) eqn:E; simpl.
    + now rewrite String.eqb_refl.
    + now rewrite E.
Qed.

Lemma find_upsert_other w w' v l :
  w' ≠ w -> find_history (upsert w v l) w' = find_history l w'.
Proof.
  intros Hne. unfold find_history. induction l as [|x l IH].
  - simpl. apply String.eqb_neq in Hne. rewrite String.eqb_sym. now rewrite Hne.
  - rewrite upsert_cons. destruct (String.eqb_spec (fst x) w) as [Hx|Hx]; simpl.
    + rewrite Hx. apply String.eqb_neq in Hne. rewrite String.eqb_sym. now rewrite Hne.
    + now rewrite IH.
Qed.

Lemma keys_upsert w v l :
  List.map fst (upsert w v l)
  = if decide (w ∈ List.map fst l) then List.map fst l else List.map fst l ++ [w].
Proof.
  induction l as [|x l IH].
  - simpl. destruct (decide (w ∈ [])) as [H|_]; [|reflexivity].
    now apply not_elem_of_nil in H.
  - rewrite upsert_cons. simpl. destruct (String.eqb_spec (fst x) w) as [Hx|Hx].
    + simpl. rewrite Hx. destruct (decide (w ∈ w :: List.map fst l)) as [|H]; [reflexivity|].
      exfalso. apply H. left.
    + simpl. rewrite IH.
      destruct (decide (w ∈ List.map fst l)) as [Hin|Hin];
        destruct (decide (w ∈ fst x :: List.map fst l)) as [Hin'|Hin']; try reflexivity.
      * exfalso. apply Hin'. now right.
      * exfalso. apply elem_of_cons in Hin' as [|]; congruence.
Qed.

Lemma getProgressEntry_set (u : user) (wordId id : string) (e : updated) :
  fst (getProgressEntry (setProgressEntry u wordId e) id)
  = if decide (id = wordId) then stored e else fst (getProgressEntry u id).
Proof.
  rewrite !getProgressEntry_entry, mapping_set, log_set.
  destruct (decide (id = wordId)) as [->|Hne].
  - now rewrite lookup_insert_eq.
  - rewrite lookup_insert_ne by congruence.
    now rewrite find_upsert_other.
Qed.

(** A write is read back: [getProgressEntry] returns the written entry for
    the written word, and for every other word what it returned before; so do
    the readers after their default-filling. *)
Theorem setProgressEntry_read_back (u : user) (wordId id : string) (e : updated) :
  fst (getProgressEntry (setProgressEntry u wordId e) id)
  = (if decide (id = wordId) then stored e else fst (getProgressEntry u id))
  ∧ normalize (setProgressEntry u wordId e) id
    = (if decide (id = wordId) then merge (stored e) else normalize u id).
Proof.
  unfold normalize. rewrite getProgressEntry_set.
  split; [reflexivity|]. now destruct (decide (id = wordId)).
Qed.

(** The history log is upserted: the word ids keep their order, the id of the
    written word is appended when it is new, ids that were unique stay
    unique, and the tuple of the written word is the written entry.  If every
    mapping entry had its copy in the log, this is still so. *)
Theorem setProgressEntry_upserts_log (u : user) (wordId : string) (e : updated) :
  let u' := setProgressEntry u wordId e in
  List.map fst (log u')
  = (if decide (wordId ∈ List.map fst (log u)) then List.map fst (log u)
     else List.map fst (log u) ++ [wordId])
  ∧ (NoDup (List.map fst (log u)) -> NoDup (List.map fst (log u')))
  ∧ mapping u' !! wordId = Some (stored e)
  ∧ find_history (log u') wordId = Some (wordId, stored e)
  ∧ ((∀ id x, mapping u !! id = Some x -> find_history (log u) id = Some (id, x)) ->
     ∀ id x, mapping u' !! id = Some x -> find_history (log u') id = Some (id, x)).
Proof.
  intros u'. subst u'. rewrite mapping_set, log_set, keys_upsert.
  split; [reflexivity|]. split.
  { intros Hnd. destruct (decide (wordId ∈ List.map fst (log u))) as [|Hn]; [assumption|].
    apply NoDup_app. split; [assumption|]. split; [|apply NoDup_singleton].
    intros x Hx Hx'. apply list_elem_of_singleton in Hx'. congruence. }
  split; [apply lookup_insert_eq|].
  split; [apply find_upsert_same|].
  intros Hc id x. destruct (decide (id = wordId)) as [->|Hne].
  - rewrite lookup_insert_eq. intros [= <-]. apply find_upsert_same.
  - rewrite lookup_insert_ne by congruence. rewrite find_upsert_other by assumption.
    apply Hc.
Qed.

End Records.

(** ** The handlers of routes/flashcards.js *)

Module FlashcardRoutes.
Import Js Store Flashcards Codec DueProperties Records Reconciler Rounding.

Lemma review_user_eq Date_toString u id difficulty now :
  review_user Date_toString u id difficulty now
  = (review_step Date_toString (fst (getProgressEntry u id)) difficulty now,
     setProgressEntry u id
       (review_step Date_toString (fst (getProgressEntry u id)) difficulty now)).
Proof.
  unfold review_user.
  pose proof (getProgressEntry_user (ensureProgressStructure u) id) as Hu.
  pose proof (getProgressEntry_ensure u id) as He.
  destruct (getProgressEntry (ensureProgressStructure u) id) as [prev u1].
  simpl in Hu, He. subst u1 prev. unfold setProgressEntry.
  now rewrite !ensure_idem.
Qed.

Lemma post_review_eq Date_toString d userId wordId difficulty now :
  post_review Date_toString d userId wordId difficulty now =
    if negb (truthy wordId) || negb (truthy difficulty) then
      (Rejected 400 "wordId and difficulty are required", d)
    else if negb (isValidObjectId (VStr userId)) || negb (isValidObjectId wordId)
    then (Rejected 400 "Invalid userId or wordId", d)
    else
      match users d !! userId with
      | None => (Rejected 404 "User not found", d)
      | Some u =>
          let id := match wordId with VStr s => s | _ => "" end in
          if negb (existsb (fun w => String.eqb (_id w) id) (catalog d)) then
            (Rejected 404 "Word not found", d)
          else
            let r := review_user Date_toString u id difficulty now in
            (Json (wordId, fst r), Db (<[userId := snd r]> (users d)) (catalog d))
      end.
Proof.
  unfold post_review.
  destruct (negb (truthy wordId) || negb (truthy difficulty)); [reflexivity|].
  destruct (negb (isValidObjectId (VStr userId)) || negb (isValidObjectId wordId));
    [reflexivity|].
  destruct (users d !! userId) as [u|]; [|reflexivity].
  destruct (negb (existsb _ (catalog d))); [reflexivity|].
  unfold review_user.
  destruct (getProgressEntry (ensureProgressStructure u) _) as [prev u1]. reflexivity.
Qed.

Lemma post_review_outcome Date_toString d userId wordId difficulty now :
  let r := post_review Date_toString d userId wordId difficulty now in
  catalog (snd r) = catalog d
  ∧ (∀ other, other ≠ userId -> users (snd r) !! other = users d !! other)
  ∧ (∀ status error, fst r = Rejected status error ->
       snd r = d ∧ (status = 400 ∨ status = 404))
  ∧ (∀ body, fst r = Json body ->
       ∃ id u, wordId = VStr id ∧ isValidObjectId (VStr id) = true
         ∧ isValidObjectId (VStr userId) = true
         ∧ users d !! userId = Some u
         ∧ (∃ w, In w (catalog d) ∧ _id w = id)
         ∧ body = (wordId, fst (review_user Date_toString u id difficulty now))
         ∧ users (snd r) !! userId
           = Some (snd (review_user Date_toString u id difficulty now))).
Proof.
  intros r. subst r. rewrite post_review_eq.
  assert (Hrej : ∀ status error, status = 400 ∨ status = 404 ->
    catalog (snd (@Rejected (value * updated) status error, d)) = catalog d
    ∧ (∀ other, other ≠ userId ->
         users (snd (@Rejected (value * updated) status error, d)) !! other
         = users d !! other)
    ∧ (∀ status' error', fst (@Rejected (value * updated) status error, d)
                          = Rejected status' error' ->
         snd (@Rejected (value * updated) status error, d) = d
         ∧ (status' = 400 ∨ status' = 404))
    ∧ (∀ body, fst (@Rejected (value * updated) status error, d) = Json body ->
         ∃ id u, wordId = VStr id ∧ isValidObjectId (VStr id) = true
           ∧ isValidObjectId (VStr userId) = true
           ∧ users d !! userId = Some u
           ∧ (∃ w, In w (catalog d) ∧ _id w = id)
           ∧ body = (wordId, fst (review_user Date_toString u id difficulty now))
           ∧ users (snd (@Rejected (value * updated) status error, d)) !! userId
             = Some (snd (review_user Date_toString u id difficulty now)))).
  { intros status error Hs. simpl. split; [reflexivity|]. split; [reflexivity|].
    split; [|intros; discriminate].
    intros status' error' [= <- <-]. split; [reflexivity|assumption]. }
  destruct (negb (truthy wordId) || negb (truthy difficulty)); [apply Hrej; now left|].
  destruct (negb (isValidObjectId (VStr userId))) eqn:Eu; [apply Hrej; now left|].
  destruct (negb (isValidObjectId wordId)) eqn:Ew; [apply Hrej; now left|].
  simpl orb. cbv iota.
  destruct (users d !! userId) as [u|] eqn:Hu; [|apply Hrej; now right].
  cbv zeta.
  destruct (negb (existsb (fun w => String.eqb (_id w)
                            match wordId with VStr s => s | _ => "" end)
                    (catalog d))) eqn:Ex; [apply Hrej; now right|].
  simpl. split; [reflexivity|].
  split; [intros other Hne; now rewrite lookup_insert_ne by congruence|].
  split; [intros; discriminate|].
  intros body [= <-].
  apply negb_false_iff in Eu, Ew, Ex.
  destruct wordId as [| | | |id|]; try discriminate Ew.
  exists id, u. split; [reflexivity|]. split; [assumption|]. split; [assumption|].
  split; [reflexivity|]. split.
  { apply existsb_exists in Ex as (w & Hw & He). exists w. split; [assumption|].
    now apply String.eqb_eq. }
  split; [reflexivity|]. apply lookup_insert_eq.
Qed.

(** A review never touches the catalog nor another user's record; a
    rejected review (status 400 or 404) leaves the whole database as it was;
    an accepted one had a present, valid word id of the catalog and an
    existing user with a valid id, and saves that user's reviewed document. *)
Theorem post_review_frame Date_toString d userId wordId difficulty now :
  let r := post_review Date_toString d userId wordId difficulty now in
  catalog (snd r) = catalog d
  ∧ (∀ other, other ≠ userId -> users (snd r) !! other = users d !! other)
  ∧ (∀ status error, fst r = Rejected status error ->
       snd r = d ∧ (status = 400 ∨ status = 404))
  ∧ (∀ body, fst r = Json body ->
       ∃ id u, wordId = VStr id ∧ isValidObjectId (VStr id) = true
         ∧ isValidObjectId (VStr userId) = true
         ∧ users d !! userId = Some u
         ∧ (∃ w, In w (catalog d) ∧ _id w = id)
         ∧ body = (wordId, fst (review_user Date_toString u id difficulty now))
         ∧ users (snd r) !! userId
           = Some (snd (review_user Date_toString u id difficulty now))).
Proof. apply post_review_outcome. Qed.

Lemma get_flashcards_eq d userId :
  get_flashcards d userId =
    if negb (isValidObjectId (VStr userId)) then Rejected 400 "Invalid user ID"
    else
      match users d !! userId with
      | None => Rejected 404 "User not found"
      | Some u => Json (List.map (fun w => (w, normalize u (_id w))) (catalog d))
      end.
Proof.
  unfold get_flashcards.
  destruct (negb (isValidObjectId (VStr userId))); [reflexivity|].
  destruct (users d !! userId); [|reflexivity].
  now rewrite wordsWithProgress_map.
Qed.

(** [GET /api/flashcards] answers 400 for an invalid user id, 404 for an
    unknown user, and otherwise lists every word of the catalog once, in
    catalog order, each with the user's normalized entry; the user documents
    are not changed by the reads. *)
Theorem get_flashcards_lists_catalog d userId :
  get_flashcards d userId =
    (if negb (isValidObjectId (VStr userId)) then Rejected 400 "Invalid user ID"
     else
       match users d !! userId with
       | None => Rejected 404 "User not found"
       | Some u => Json (List.map (fun w => (w, normalize u (_id w))) (catalog d))
       end)
  ∧ ∀ l, get_flashcards d userId = Json l -> List.map fst l = catalog d.
Proof.
  split; [apply get_flashcards_eq|].
  intros l. rewrite get_flashcards_eq.
  destruct (negb (isValidObjectId (VStr userId))); [discriminate|].
  destruct (users d !! userId); [|discriminate].
  intros [= <-]. rewrite List.map_map. simpl. apply List.map_id.
Qed.

Lemma map_filter_pair {A B} (f : A -> B) (P : B -> bool) (l : list A) :
  List.map (fun a => (a, f a)) (List.filter (fun a => P (f a)) l)
  = List.filter (fun x => P (snd x)) (List.map (fun a => (a, f a)) l).
Proof.
  induction l as [|a l IH]; [reflexivity|].
  simpl. destruct (P (f a)); simpl; now rewrite IH.
Qed.

(** The due list is the listing of [GET /api/flashcards], filtered by "due"
    on the merged entry: the two handlers answer the same rejections, and
    every item of the due list is an item of the listing. *)
Theorem get_due_filters_listing Date_parse d userId now :
  get_due Date_parse d userId now =
    match get_flashcards d userId with
    | Json l => Json (List.filter (fun x => Spec.due Date_parse (snd x) now) l)
    | Rejected status error => Rejected status error
    end.
Proof.
  rewrite get_due_unfold, get_flashcards_eq.
  destruct (negb (isValidObjectId (VStr userId))); [reflexivity|].
  destruct (users d !! userId) as [u|]; [|reflexivity].
  f_equal. apply (map_filter_pair (fun w => normalize u (_id w))
                    (fun e => Spec.due Date_parse e now)).
Qed.

(** A review is visible at once: after an accepted review, the listing of
    the same user shows every catalog word of that id with the ease, the
    interval and the two dates the review answered. *)
Theorem post_review_then_listing Date_toString d userId wordId difficulty now upd :
  fst (post_review Date_toString d userId wordId difficulty now) = Json (wordId, upd) ->
  ∃ l, get_flashcards (snd (post_review Date_toString d userId wordId difficulty now))
         userId = Json l
    ∧ ∀ w, In w (catalog d) -> VStr (_id w) = wordId ->
        ∃ e, In (w, e) l
          ∧ ease e = VNum (u_ease upd) ∧ interval e = VNum (u_interval upd)
          ∧ lastReviewed e = VDate (u_lastReviewed upd)
          ∧ nextReview e = VDate (u_nextReview upd).
Proof.
  intros H.
  destruct (post_review_outcome Date_toString d userId wordId difficulty now)
    as (Hcat & _ & _ & Hok).
  destruct (Hok _ H) as (id & u & -> & Hvid & Hvu & Hu & _ & Hbody & Hu').
  injection Hbody as Hupd.
  rewrite get_flashcards_eq, Hvu, Hu', Hcat. simpl.
  eexists. split; [reflexivity|].
  intros w Hw [= Hid].
  exists (normalize (snd (review_user Date_toString u id difficulty now)) (_id w)).
  split; [apply in_map_iff; exists w; split; [reflexivity|assumption]|].
  rewrite review_user_eq. simpl. unfold normalize.
  rewrite getProgressEntry_set, Hid.
  destruct (decide (id = id)) as [_|]; [|congruence].
  rewrite review_user_eq in Hupd. simpl in Hupd. rewrite <- Hupd.
  repeat split.
Qed.

Lemma post_review_then_listing_witness :
  ∃ l, get_flashcards Examples.db1 Examples.user_id = Json l
    ∧ ∀ w, In w (catalog Examples.db0) -> VStr (_id w) = VStr Examples.word_id ->
        ∃ e, In (w, e) l
          ∧ ease e = VNum 2.65 ∧ interval e = VNum 1
          ∧ lastReviewed e = VDate 1700000000000
          ∧ nextReview e = VDate 1700086400000.
Proof.
  exact (post_review_then_listing Examples.no_date_string Examples.db0
           Examples.user_id (VStr Examples.word_id) (VStr "easy") 1700000000000
           (Updated 2.65 1 (VNum 1) 1700000000000 1700086400000) eq_refl).
Defined.

End FlashcardRoutes.

(** ** More on the scheduler *)

Module SchedulerMore.
Import Js Store Flashcards Codec Rounding Reconciler FlashcardRoutes.

Lemma review_step_unknown Date_toString prev difficulty now :
  is_string difficulty "easy" = false ->
  is_string difficulty "medium" = false ->
  review_step Date_toString prev difficulty now
  = review_step Date_toString prev (VStr "hard") now.
Proof. intros H1 H2. unfold review_step. now rewrite H1, H2. Qed.

Lemma mastered_after_other w i m x :
  x ≠ w -> (x ∈ mastered_after w i m <-> x ∈ m).
Proof.
  intros Hne. unfold mastered_after.
  destruct (21 <=? i)%float; destruct (findIndex (is_id w) m) as [k|] eqn:E;
    try tauto.
  - rewrite elem_of_push. tauto.
  - split; [apply splice1_subset|now apply (splice1_other w)].
Qed.

Lemma needsReview_after_other w i n x :
  x ≠ w -> (x ∈ needsReview_after w i n <-> x ∈ n).
Proof.
  intros Hne. unfold needsReview_after.
  destruct (21 <=? i)%float; [|destruct (i <? 7)%float];
    destruct (findIndex (is_id w) n) as [k|] eqn:E; try tauto;
    try (rewrite elem_of_push; tauto);
    (split; [apply splice1_subset|now apply (splice1_other w)]).
Qed.

(** A write for one word leaves the classification of every other word as it
    was, whatever the arrays held. *)
Theorem setProgressEntry_other_ids (u : user) (wordId x : string) (e : updated) :
  x ≠ wordId ->
  (x ∈ mastered_ids (setProgressEntry u wordId e) <-> x ∈ mastered_ids u)
  ∧ (x ∈ needsReview_ids (setProgressEntry u wordId e) <-> x ∈ needsReview_ids u).
Proof.
  intros Hne. destruct (setProgressEntry_arrays u wordId e) as [-> ->].
  split; [now apply mastered_after_other|now apply needsReview_after_other].
Qed.

Lemma setProgressEntry_other_ids_witness :
  let u := User (Some (Progress None None (Some ["b"]) (Some ["c"]))) in
  let e := Updated 2.65 27 (VNum 1) 1700000000000 1702332800000 in
  "b" ≠ "a"
  ∧ ("b" ∈ mastered_ids (setProgressEntry u "a" e) <-> "b" ∈ mastered_ids u).
Proof.
  intros u e. assert (H : "b" ≠ "a") by discriminate.
  split; [exact H|]. exact (proj1 (setProgressEntry_other_ids u "a" "b" e H)).
Defined.

(** A review that is neither easy nor medium, and every first review of a
    word the user has no entry for, gives the interval 1 and leaves the word
    in [needsReview] and out of [mastered] (the arrays holding no
    duplicates). *)
Theorem short_interval_needs_review Date_toString (u : user) (id : string)
    (difficulty : value) (now : float) :
  NoDup (mastered_ids u) -> NoDup (needsReview_ids u) ->
  (is_string difficulty "easy" = false ∧ is_string difficulty "medium" = false)
  ∨ (mapping u !! id = None ∧ find_history (log u) id = None) ->
  let r := review_user Date_toString u id difficulty now in
  u_interval (fst r) = 1%float
  ∧ id ∈ needsReview_ids (snd r)
  ∧ id ∉ mastered_ids (snd r).
Proof.
  intros Hm Hn Hc r. subst r. rewrite review_user_eq. simpl.
  set (upd := review_step Date_toString (fst (getProgressEntry u id)) difficulty now).
  assert (Hi : u_interval upd = 1%float).
  { subst upd. destruct Hc as [[H1 H2]|[H1 H2]].
    - now rewrite review_step_unknown.
    - rewrite getProgressEntry_entry, H1, H2. unfold review_step.
      destruct (is_string difficulty "easy"); [reflexivity|].
      destruct (is_string difficulty "medium"); reflexivity. }
  destruct (setProgressEntry_arrays u id upd) as [-> ->].
  destruct (mastered_after_spec id (u_interval upd) _ Hm) as (_ & M2 & _).
  destruct (needsReview_after_spec id (u_interval upd) _ Hn) as (_ & N2 & _).
  rewrite Hi in *. split; [reflexivity|]. split.
  - now apply N2.
  - rewrite M2. discriminate.
Qed.

Lemma short_interval_needs_review_witness :
  let u := User None in
  let id := "0123456789abcdef01234567" in
  let r := review_user (fun _ => "") u id (VStr "easy") 1700000000000 in
  NoDup (mastered_ids u) ∧ NoDup (needsReview_ids u)
  ∧ u_interval (fst r) = 1%float ∧ id ∈ needsReview_ids (snd r).
Proof.
  intros u id r.
  assert (H1 : NoDup (mastered_ids u)) by apply NoDup_nil_2.
  assert (H2 : NoDup (needsReview_ids u)) by apply NoDup_nil_2.
  destruct (short_interval_needs_review (fun _ => "") u id (VStr "easy")
              1700000000000 H1 H2 (or_intror (conj eq_refl eq_refl)))
    as (A & B & _).
  split; [exact H1|]. split; [exact H2|]. split; [exact A|exact B].
Defined.

(** *** Numbers that are not finite *)

Lemma is_finite_false x :
  is_finite x = false ->
  Prim2SF x = S754_nan ∨ ∃ s, Prim2SF x = S754_infinity s.
Proof.
  unfold is_finite, is_nan, is_infinity.
  rewrite !FloatAxioms.eqb_spec, abs_spec.
  change (Prim2SF infinity) with (S754_infinity false).
  destruct (Prim2SF x) as [s|s| |s m e]; eauto.
  - destruct s; discriminate.
  - unfold SFeqb, SFcompare. rewrite Z.compare_refl.
    change (Pos.compare_cont Eq m m) with (Pos.compare m m).
    rewrite Pos.compare_refl. destruct s; discriminate.
Qed.

Lemma is_finite_false_intro x :
  Prim2SF x = S754_nan ∨ (∃ s, Prim2SF x = S754_infinity s) ->
  is_finite x = false.
Proof.
  unfold is_finite, is_nan, is_infinity.
  rewrite !FloatAxioms.eqb_spec, abs_spec.
  change (Prim2SF infinity) with (S754_infinity false).
  intros [->|[s ->]]; [reflexivity|]. destruct s; reflexivity.
Qed.

Lemma mul_not_finite x c m e :
  Prim2SF c = S754_finite false m e ->
  is_finite x = false -> is_finite (x * c) = false.
Proof.
  intros Hc Hx. apply is_finite_false in Hx. apply is_finite_false_intro.
  rewrite FloatAxioms.mul_spec, Hc.
  destruct Hx as [->|[s ->]]; [now left|right]. simpl. eauto.
Qed.

Lemma add_not_finite x y :
  is_finite y = false -> is_finite (x + y) = false.
Proof.
  intros Hy. apply is_finite_false in Hy. apply is_finite_false_intro.
  rewrite FloatAxioms.add_spec.
  destruct Hy as [->|[s ->]].
  - left. destruct (Prim2SF x); reflexivity.
  - destruct (Prim2SF x) as [sx|sx| |sx mx ex]; simpl; eauto.
    destruct sx, s; eauto.
Qed.

Lemma leb_nan_l t : (nan <=? t)%float = false.
Proof. rewrite FloatAxioms.leb_spec. reflexivity. Qed.

(** When the interval a review computes is not a finite number (it
    overflowed to Infinity, or is NaN), the next review date is an invalid
    Date, and the stored entry is not due at any time: the word has left the
    due list for good. *)
Theorem overflowed_interval_never_due Date_toString Date_parse
    (prev : entry) (difficulty : value) (now : float) :
  let e := review_step Date_toString prev difficulty now in
  is_finite (u_interval e) = false ->
  u_nextReview e = nan
  ∧ ∀ t, is_due Date_parse (stored e) t = false.
Proof.
  intros e Hi.
  assert (Hn : u_nextReview e = nan).
  { assert (Hs : u_nextReview e
                 = TimeClip (now + u_interval e * 24 * 60 * 60 * 1000)%float).
    { subst e. unfold review_step.
      destruct (is_string difficulty "easy"); [reflexivity|].
      destruct (is_string difficulty "medium"); reflexivity. }
    rewrite Hs. unfold TimeClip.
    assert (Hf : is_finite (now + u_interval e * 24 * 60 * 60 * 1000)%float = false).
    { apply add_not_finite.
      apply (mul_not_finite _ 1000 8796093022208000 (-43) eq_refl).
      apply (mul_not_finite _ 60 8444249301319680 (-47) eq_refl).
      apply (mul_not_finite _ 60 8444249301319680 (-47) eq_refl).
      apply (mul_not_finite _ 24 6755399441055744 (-48) eq_refl).
      exact Hi. }
    now rewrite Hf. }
  split; [exact Hn|].
  intros t. unfold is_due. simpl. rewrite Hn. simpl. apply leb_nan_l.
Qed.

(** The entry after 699 easy reviews of a new word. *)
Lemma overflowed_interval_never_due_witness :
  let prev := reviews (fun _ => "")
                (repeat (VStr "easy", 1700000000000%float) 699) default_entry in
  let e := review_step (fun _ => "") prev (VStr "easy") 1700000000000 in
  is_finite (u_interval e) = false
  ∧ u_nextReview e = nan
  ∧ is_due (fun _ => nan) (stored e) 4000000000000 = false.
Proof.
  intros prev e.
  assert (H : is_finite (u_interval e) = false) by (vm_compute; reflexivity).
  destruct (overflowed_interval_never_due (fun _ => "") (fun _ => nan) prev
              (VStr "easy") 1700000000000 H) as [A B].
  split; [exact H|]. split; [exact A|exact (B 4000000000000%float)].
Defined.

End SchedulerMore.

(** ** Reachable entries *)

Module Reachable.
Import Js Store Flashcards Codec Rounding Binary64.

(** An easy review never lowers the ease and a medium or hard review never
    raises it (for an ease in the range of the data model). *)
Theorem new_ease_direction (x : float) :
  (1.3 <=? x)%float = true -> (x <=? 3)%float = true ->
  (x <=? Spec.new_ease Spec.easy x)%float = true
  ∧ (Spec.new_ease Spec.medium x <=? x)%float = true
  ∧ (Spec.new_ease Spec.hard x <=? x)%float = true.
Proof.
  intros Hlo Hhi.
  destruct (between_pos _ _ _ _ _ _ _ Prim2SF_1_3 Prim2SF_3 Hlo Hhi)
    as (m & e & Hx & Bx & Hr).
  pose proof F2R_1_3. pose proof F2R_3.
  assert (Hxn : is_nan x = false) by (eapply float_leb_not_nan_l; eauto).
  split; [|split].
  - simpl.
    assert (Hy : (x <=? x + 0.15)%float = true).
    { rewrite FloatAxioms.leb_spec, FloatAxioms.add_spec, Hx, Prim2SF_0_15.
      destruct (SFadd_rounds m e 5404319552844595 (-55)) as (_ & _ & Hl & _).
      apply Hl; [assumption|]. pose proof F2R_0_15. lra. }
    assert (Hn : is_nan (x + 0.15) = false) by (eapply float_leb_not_nan_r; eauto).
    destruct (Math_min_spec 3 (x + 0.15) eq_refl Hn) as ([->| ->] & _); assumption.
  - simpl. pose proof F2R_0_05.
    destruct (SFsub_rounds m e 7205759403792794 (-57)) as (_ & _ & _ & Hu & _); [lra|].
    assert (Hy : (x - 0.05 <=? x)%float = true).
    { rewrite FloatAxioms.leb_spec, FloatAxioms.sub_spec, Hx, Prim2SF_0_05.
      apply Hu; [assumption|]. lra. }
    assert (Hn : is_nan (x - 0.05) = false) by (eapply float_leb_not_nan_l; eauto).
    destruct (Math_max_spec 1.3 (x - 0.05) eq_refl Hn) as ([->| ->] & _); assumption.
  - simpl. pose proof F2R_0_2.
    destruct (SFsub_rounds m e 7205759403792794 (-55)) as (_ & _ & _ & Hu & _); [lra|].
    assert (Hy : (x - 0.2 <=? x)%float = true).
    { rewrite FloatAxioms.leb_spec, FloatAxioms.sub_spec, Hx, Prim2SF_0_2.
      apply Hu; [assumption|]. lra. }
    assert (Hn : is_nan (x - 0.2) = false) by (eapply float_leb_not_nan_l; eauto).
    destruct (Math_max_spec 1.3 (x - 0.2) eq_refl Hn) as ([->| ->] & _); assumption.
Qed.

Lemma new_ease_direction_witness :
  (1.3 <=? 2.5)%float = true ∧ (2.5 <=? 3)%float = true
  ∧ (2.5 <=? Spec.new_ease Spec.easy 2.5)%float = true
  ∧ (Spec.new_ease Spec.medium 2.5 <=? 2.5)%float = true
  ∧ (Spec.new_ease Spec.hard 2.5 <=? 2.5)%float = true.
Proof.
  split; [reflexivity|]. split; [reflexivity|].
  exact (new_ease_direction 2.5 eq_refl eq_refl).
Defined.

Lemma new_interval_ge_1 (o : Spec.outcome) (i0 x : float) :
  (1.3 <=? x)%float = true -> (x <=? 3)%float = true ->
  (0 <=? i0)%float = true ->
  (1 <=? Spec.new_interval o i0 x)%float = true.
Proof.
  intros Hlo Hhi Hi.
  destruct (between_pos _ _ _ _ _ _ _ Prim2SF_1_3 Prim2SF_3 Hlo Hhi)
    as (m1 & x1 & He1 & _ & Hr1).
  pose proof F2R_1_3.
  destruct o; simpl; try reflexivity.
  - destruct (i0 =? 0)%float eqn:E0; [reflexivity|].
    apply (ceil_mul_ge_1 i0 x m1 x1 He1); [lra|assumption|assumption].
  - destruct (i0 =? 0)%float eqn:E0; [reflexivity|].
    apply (ceil_mul_ge_1 i0 1.2 _ _ Prim2SF_1_2); [|assumption|assumption].
    pose proof F2R_1_2. lra.
Qed.

Lemma review_step_in_bounds Date_toString e o now :
  in_bounds e ->
  in_bounds (stored (review_step Date_toString e (Spec.difficulty o) now))
  ∧ (1 <=? u_interval (review_step Date_toString e (Spec.difficulty o) now))%float
    = true.
Proof.
  intros (x & i & Hx & Hi & Hlo & Hhi & H0).
  assert (He : u_ease (review_step Date_toString e (Spec.difficulty o) now)
               = Spec.new_ease o x)
    by (destruct o; unfold review_step; rewrite Hx; reflexivity).
  assert (Hint : u_interval (review_step Date_toString e (Spec.difficulty o) now)
                 = Spec.new_interval o i (Spec.new_ease o x))
    by (destruct o; unfold review_step; rewrite Hx, Hi; reflexivity).
  destruct (Scheduler.new_ease_range o x Hlo Hhi) as [Hlo' Hhi'].
  pose proof (new_interval_ge_1 o i _ Hlo' Hhi' H0) as H1.
  split; [|now rewrite Hint].
  exists (Spec.new_ease o x), (Spec.new_interval o i (Spec.new_ease o x)).
  simpl. rewrite He, Hint. repeat split; try assumption.
  apply float_leb_trans with 1%float; [reflexivity|assumption].
Qed.

(** Whatever reviews a new word goes through, with valid outcomes and at any
    times, the stored entry keeps an ease between 1.3 and 3.0, and after the
    first review an interval of at least 1. *)
Theorem reviews_keep_bounds Date_toString (steps : list (Spec.outcome * float)) :
  let e := reviews Date_toString
             (List.map (fun s => (Spec.difficulty (fst s), snd s)) steps)
             default_entry in
  ∃ x i, ease e = VNum x ∧ interval e = VNum i
    ∧ (1.3 <=? x)%float = true ∧ (x <=? 3)%float = true
    ∧ match steps with
      | [] => i = 0%float
      | _ :: _ => (1 <=? i)%float = true
      end.
Proof.
  assert (G : ∀ (steps : list (Spec.outcome * float)) e0, in_bounds e0 ->
            let e := reviews Date_toString
                       (List.map (fun s => (Spec.difficulty (fst s), snd s)) steps) e0 in
            in_bounds e
            ∧ ∀ i, interval e = VNum i ->
                (steps = [] ∧ interval e0 = VNum i) ∨ (1 <=? i)%float = true).
  { clear steps. induction steps as [|[o now] steps IH]; intros e0 Hb; simpl.
    - split; [assumption|]. intros i Hi. now left.
    - destruct (review_step_in_bounds Date_toString e0 o now Hb) as [Hb' Hi'].
      destruct (IH _ Hb') as [Hb'' Hi''].
      split; [assumption|]. intros i Hi. right.
      destruct (Hi'' i Hi) as [[-> Heq]|]; [|assumption].
      simpl in Heq. injection Heq as <-. assumption. }
  intros e.
  destruct (G steps default_entry) as [(x & i & Hx & Hi & Hlo & Hhi & H0) H1].
  { exists 2.5%float, 0%float. repeat split. }
  fold e in Hx, Hi, H1. exists x, i. repeat split; try assumption.
  destruct steps as [|s steps].
  - simpl in e. subst e. simpl in Hi. now injection Hi as <-.
  - destruct (H1 i Hi) as [[? _]|]; [discriminate|assumption].
Qed.

Lemma positive_is_truthy (c x : float) m e :
  Prim2SF c = S754_finite false m e ->
  (c <=? x)%float = true -> truthy (VNum x) = true.
Proof.
  intros Hc H. simpl. apply negb_true_iff, orb_false_iff.
  split; [|eapply float_leb_not_nan_r; eauto].
  unfold is_zero. rewrite FloatAxioms.eqb_spec. rewrite FloatAxioms.leb_spec, Hc in H.
  change (Prim2SF zero) with (S754_zero false).
  destruct (Prim2SF x) as [[|]|[|]| |[|] ? ?]; try discriminate H; reflexivity.
Qed.

(** On an entry the scheduler produced (ease of at least 1.3, interval of at
    least 1) the default-filling of [routes/words.js] ([x || d]) and the one
    of [routes/flashcards.js] ([typeof x === 'number' ? x : d]) give the same
    merged fields. *)
Theorem merges_agree_on_scheduled (e : updated) :
  (1.3 <=? u_ease e)%float = true ->
  (1 <=? u_interval e)%float = true ->
  Words.merge (stored e) = Flashcards.merge (stored e).
Proof.
  intros He Hi. unfold Words.merge, Flashcards.merge, stored, or_else. cbn [ease interval reviewCount lastReviewed nextReview number_or].
  rewrite (positive_is_truthy _ _ _ _ Prim2SF_1_3 He).
  rewrite (positive_is_truthy _ _ _ _ Prim2SF_1 Hi).
  reflexivity.
Qed.

Lemma merges_agree_on_scheduled_witness :
  let e := Updated 2.65 1 (VNum 1) 1700000000000 1700086400000 in
  (1.3 <=? 2.65)%float = true ∧ (1 <=? 1)%float = true
  ∧ Words.merge (stored e) = Flashcards.merge (stored e).
Proof.
  intros e. split; [reflexivity|]. split; [reflexivity|].
  exact (merges_agree_on_scheduled e eq_refl eq_refl).
Defined.

End Reachable.

(** ** routes/words.js *)

Module WordRoutes.
Import Js Store Flashcards Codec Rounding Binary64.

Lemma map_get_unset (id id' : string) (u : option user) :
  Words.map_get (Words.unset_map_key id <$> u) id'
  = if decide (id' = id) then no_fields else Words.map_get u id'.
Proof.
  destruct u as [[[[[[bi [mp|]]|] h m n]|]]|]; simpl;
    (destruct (decide (id' = id)) as [->|Hne]; [|try reflexivity]);
    unfold Words.map_get; simpl; try reflexivity.
  - now rewrite lookup_delete_eq.
  - now rewrite lookup_delete_ne by congruence.
Qed.

(** [DELETE /api/words/:id] answers 404 and changes nothing when no word has
    the id.  Otherwise the word leaves the catalog, the other words stay in
    their order, the same users exist, and for every user the reader of
    [routes/words.js] finds nothing under the id any more while its reads of
    the other ids are as before. *)
Theorem delete_word_purges_map (d : db) (id : string) :
  let found := existsb (fun w => String.eqb (_id w) id) (catalog d) in
  let r := Words.delete_word d id in
  (found = false -> r = (Rejected 404 "Word not found", d))
  ∧ (found = true ->
       fst r = Json "Word removed"
       ∧ catalog (snd r)
         = List.filter (fun w => negb (String.eqb (_id w) id)) (catalog d)
       ∧ (∀ w, In w (catalog (snd r)) <-> In w (catalog d) ∧ _id w ≠ id)
       ∧ (∀ userId, is_Some (users (snd r) !! userId)
                    <-> is_Some (users d !! userId))
       ∧ (∀ userId, Words.map_get (users (snd r) !! userId) id = no_fields)
       ∧ (∀ userId id', id' ≠ id ->
            Words.map_get (users (snd r) !! userId) id'
            = Words.map_get (users d !! userId) id')
       ∧ (∀ userId w, _id w = id ->
            Words.wordsWithProgress (snd r) userId [w] = [(w, default_entry)])).
Proof.
  intros found r. subst found r. unfold Words.delete_word.
  destruct (existsb _ (catalog d)); split; try discriminate; try reflexivity.
  intros _. simpl. split; [reflexivity|]. split; [reflexivity|].
  split.
  { intros w. rewrite filter_In, negb_true_iff, String.eqb_neq. tauto. }
  split; [intros userId; rewrite lookup_fmap; apply fmap_is_Some|].
  split.
  { intros userId. rewrite lookup_fmap, map_get_unset.
    destruct (decide (id = id)); congruence. }
  split.
  { intros userId id' Hne. rewrite lookup_fmap, map_get_unset.
    destruct (decide (id' = id)); congruence. }
  intros userId w Hw. unfold Words.wordsWithProgress. simpl.
  rewrite lookup_fmap, Hw, map_get_unset.
  destruct (decide (id = id)); [reflexivity|congruence].
Qed.

(** *** Pagination *)

Lemma SFsub_nonneg mx ex my ey :
  (F2R (Z.pos my) ey <= F2R (Z.pos mx) ex)%R ->
  let r := SFsub prec emax (S754_finite false mx ex) (S754_finite false my ey) in
  r = S754_zero false ∨ r = S754_infinity false
  ∨ ∃ m e, r = S754_finite false m e ∧ SpecFloat.bounded prec emax m e = true.
Proof.
  intros Hle r. subst r.
  destruct (Rle_lt_or_eq_dec _ _ Hle) as [Hlt|Heq].
  - destruct (SFsub_rounds mx ex my ey Hlt) as (Hv & [Hr|[Hr|(m & e & Hr)]] & _);
      auto.
    right; right. exists m, e. rewrite Hr in Hv. auto.
  - left.
    change (SFsub prec emax (S754_finite false mx ex) (S754_finite false my ey))
      with (binary_normalize prec emax
              (Z.pos (fst (shl_align mx ex (Z.min ex ey)))
               - Z.pos (fst (shl_align my ey (Z.min ex ey)))) (Z.min ex ey) false).
    destruct (shl_align_spec mx ex (Z.min ex ey)) as [_ Hx].
    destruct (shl_align_spec my ey (Z.min ex ey)) as [_ Hy].
    replace (Z.min ex (Z.min ex ey)) with (Z.min ex ey) in Hx by lia.
    replace (Z.min ey (Z.min ex ey)) with (Z.min ex ey) in Hy by lia.
    rewrite (F2R_shift (Z.pos mx) ex (Z.min ex ey)),
            (F2R_shift (Z.pos my) ey (Z.min ex ey)) in Heq by lia.
    rewrite <- Hx, <- Hy in Heq.
    assert (Hz : Z.pos (fst (shl_align my ey (Z.min ex ey)))
                 = Z.pos (fst (shl_align mx ex (Z.min ex ey)))).
    { apply Z.le_antisymm; apply (F2R_le _ _ (Z.min ex ey)); rewrite Heq; apply Rle_refl. }
    rewrite Hz, Z.sub_diag. reflexivity.
Qed.

Lemma F2R_100 : F2R 7036874417766400 (-46) = 100%R.
Proof. rewrite (F2R_neg_exp _ 46) by lia. change (2 ^ 46) with 70368744177664. lra. Qed.

(** The page is at least 1, the limit lies between 1 and 100 and the number
    of skipped words is not negative, provided [parseInt] did not give NaN;
    a NaN (a [page] or [limit] that is not a number) passes through
    [Math.max] and [Math.min] and makes the page, the limit and the skip
    NaN. *)
Theorem pagination_bounds (page limit : float) :
  (is_nan page = false -> (1 <=? Words.pageNum page)%float = true)
  ∧ (is_nan limit = false ->
       (1 <=? Words.limitNum limit)%float = true
       ∧ (Words.limitNum limit <=? 100)%float = true)
  ∧ (is_nan page = false -> is_nan limit = false ->
       (0 <=? Words.skip page limit)%float = true)
  ∧ Words.pageNum nan = nan ∧ Words.limitNum nan = nan
  ∧ Words.skip nan limit = nan ∧ Words.skip page nan = nan.
Proof.
  assert (Hp : is_nan page = false -> (1 <=? Words.pageNum page)%float = true).
  { intros Hn. unfold Words.pageNum.
    now destruct (Math_max_spec 1 page eq_refl Hn) as (_ & H & _). }
  assert (Hl : is_nan limit = false ->
               (1 <=? Words.limitNum limit)%float = true
               ∧ (Words.limitNum limit <=? 100)%float = true).
  { intros Hn. unfold Words.limitNum.
    destruct (Math_max_spec 1 limit eq_refl Hn) as (_ & H1 & _).
    assert (Hn' : is_nan (Math_max 1 limit) = false)
      by (eapply float_leb_not_nan_r; eauto).
    destruct (Math_min_spec 100 (Math_max 1 limit) eq_refl Hn') as ([->| ->] & H2 & _).
    - split; reflexivity.
    - split; assumption. }
  split; [exact Hp|]. split; [exact Hl|]. split.
  { intros Hnp Hnl. specialize (Hp Hnp). destruct (Hl Hnl) as [Hl1 Hl2].
    unfold Words.skip. set (p := Words.pageNum page) in *.
    set (l := Words.limitNum limit) in *.
    destruct (between_pos 1 100 l _ _ 7036874417766400 (-46) Prim2SF_1 eq_refl Hl1 Hl2)
      as (ml & el & Hsl & Bl & _).
    rewrite FloatAxioms.leb_spec, FloatAxioms.mul_spec, FloatAxioms.sub_spec, Hsl.
    unfold SF64mul, SF64sub.
    rewrite FloatAxioms.leb_spec, Prim2SF_1 in Hp.
    change (Prim2SF 0) with (S754_zero false). rewrite Prim2SF_1.
    pose proof (Prim2SF_valid p) as Vp.
    destruct (Prim2SF p) as [[|]|[|]| |[|] mp ep] eqn:Ep;
      try (exfalso; cbn in Hp; discriminate).
    - reflexivity.
    - simpl in Vp. apply SFleb_finite in Hp; [|reflexivity|assumption].
      destruct (SFsub_nonneg mp ep 4503599627370496 (-52) Hp)
        as [->|[->|(m & e & -> & Bm)]]; try reflexivity.
      destruct (SFmul_rounds m e ml el Bm Bl) as (_ & [->|[->|(m' & e' & ->)]] & _);
        reflexivity. }
  repeat split.
  - unfold Words.skip, Words.limitNum, Words.pageNum. 
    apply Prim2SF_inj. rewrite FloatAxioms.mul_spec. reflexivity.
  - unfold Words.skip. apply Prim2SF_inj. rewrite FloatAxioms.mul_spec.
    change (Prim2SF (Words.limitNum nan)) with S754_nan.
    destruct (Prim2SF (Words.pageNum page - 1)); reflexivity.
Qed.

End WordRoutes.

(** ** Consistency of the stored records *)

Module Consistency.
Import Js Store Flashcards Codec Rounding Reconciler Records SchedulerMore
       FlashcardRoutes.

Lemma setProgressEntry_consistent u w e :
  consistent u -> consistent (setProgressEntry u w e).
Proof.
  intros (Hm & Hn & Hd & Hk & Hc & Hcl). unfold consistent.
  destruct (setProgressEntry_arrays u w e) as [-> ->].
  rewrite mapping_set, log_set, keys_upsert.
  destruct (mastered_after_spec w (u_interval e) _ Hm) as (M1 & M2 & M3).
  destruct (needsReview_after_spec w (u_interval e) _ Hn) as (N1 & N2 & N3).
  split; [assumption|]. split; [assumption|]. split.
  { intros x Hx Hx'. destruct (decide (x = w)) as [->|Hne].
    - apply M2 in Hx. apply N2 in Hx'.
      rewrite (needs_excludes_mastered _ Hx') in Hx. discriminate.
    - apply (Hd x); [now apply M3|now apply N3]. }
  split.
  { destruct (decide (w ∈ List.map fst (log u))) as [|Hnin]; [assumption|].
    apply NoDup_app. split; [assumption|]. split; [|apply NoDup_singleton].
    intros x Hx Hx'. apply list_elem_of_singleton in Hx'. congruence. }
  split.
  { intros id x. destruct (decide (id = w)) as [->|Hne].
    - rewrite lookup_insert_eq. intros [= <-]. apply find_upsert_same.
    - rewrite lookup_insert_ne by congruence. rewrite find_upsert_other by assumption.
      apply Hc. }
  intros id x i. destruct (decide (id = w)) as [->|Hne].
  - rewrite lookup_insert_eq. intros [= <-] [= <-]. split; assumption.
  - rewrite lookup_insert_ne by congruence. intros Hx Hi.
    rewrite M3, N3 by assumption. eauto.
Qed.

(** Reviews keep the stored records consistent: if in every user's record
    the two membership arrays are disjoint sets, the log has one tuple per
    word, every mapping entry has its copy in the log and every word of the
    mapping is classified by its stored interval (mastered from 21 days,
    needs review below 7), then the same holds after any review request,
    accepted or not. *)
Theorem post_review_keeps_consistency Date_toString d userId wordId difficulty now :
  (∀ id u, users d !! id = Some u -> consistent u) ->
  ∀ id u,
    users (snd (post_review Date_toString d userId wordId difficulty now)) !! id
    = Some u ->
    consistent u.
Proof.
  intros Hall id u.
  destruct (post_review_outcome Date_toString d userId wordId difficulty now)
    as (_ & Hother & Hrej & Hok).
  destruct (fst (post_review Date_toString d userId wordId difficulty now))
    as [body|status error] eqn:E.
  - destruct (Hok body eq_refl) as (wid & u0 & _ & _ & _ & Hu0 & _ & _ & Hsaved).
    destruct (decide (id = userId)) as [->|Hne].
    + rewrite Hsaved. intros [= <-]. rewrite review_user_eq. simpl.
      apply setProgressEntry_consistent. eauto.
    + rewrite Hother by assumption. apply Hall.
  - destruct (Hrej status error eq_refl) as [-> _]. apply Hall.
Qed.

Lemma post_review_keeps_consistency_witness :
  (∀ id u, users Examples.db0 !! id = Some u -> consistent u)
  ∧ ∀ id u, users Examples.db1 !! id = Some u -> consistent u.
Proof.
  assert (H : ∀ id u, users Examples.db0 !! id = Some u -> consistent u).
  { intros id u. unfold Examples.db0. simpl.
    destruct (decide (id = Examples.user_id)) as [->|Hne].
    - rewrite lookup_singleton_eq. intros [= <-].
      unfold consistent. simpl.
      split; [apply NoDup_nil_2|]. split; [apply NoDup_nil_2|].
      split; [intros x Hx; now apply not_elem_of_nil in Hx|].
      split; [apply NoDup_nil_2|].
      split; intros id x; unfold mapping; simpl; rewrite lookup_empty; discriminate.
    - rewrite lookup_singleton_ne by congruence. discriminate. }
  split; [exact H|].
  exact (post_review_keeps_consistency Examples.no_date_string Examples.db0
           Examples.user_id (VStr Examples.word_id) (VStr "easy") 1700000000000 H).
Defined.

End Consistency.
